(** * EventFlow: the event broker's dispatch pipeline

    A shallow embedding of [EventBroker] (eventBroker.ts), of the
    constants and option shapes of types.ts, of [createLoggerMiddleware]
    (middlewares/logger.ts) and of [createEventBroker] (index.ts).

    The broker's own code is embedded as Rocq functions over an explicit
    world (the broker's fields, the heap of JavaScript [Set] objects the
    listener registry points to, and the console).  Listeners, middlewares
    and custom error handlers are user code: they are identified by
    reference (a number) and their bodies are programs over the broker's
    public interface, looked up in an environment. *)

From stdpp Require Import gmap strings list fin_maps.
From Stdlib Require Import ZArith.

Open Scope string_scope.
Open Scope list_scope.

(** ** types.ts *)

Definition DEFAULT_MAX_LISTENERS : nat := 10.

Module POLICY.
Definition CONTINUE : string := "continue".
Definition STOP : string := "stop".
End POLICY.

Inductive ErrorType := LISTENER | EMIT | MIDDLEWARE.

(** [ERROR_TYPE]: the string each tag stands for. *)
Definition ERROR_TYPE (t : ErrorType) : string :=
  match t with
  | LISTENER => "listener"
  | EMIT => "emit"
  | MIDDLEWARE => "middleware"
  end.

(** Payloads are opaque to the broker; integers stand for them. *)
Definition Data := Z.

(** A thrown value: an [Error] with its message. *)
Record Error := mkError { message : string }.

Record Event := mkEvent { name : string; data : Data }.

(** A slot of the error policy holds a string ([Policy]) or a function
    ([ErrorHandler], by reference); an omitted slot is [None]. *)
Inductive PolicyValue :=
| PString (s : string)
| PFunction (h : nat).

Record ErrorPolicy := mkErrorPolicy {
  onListenerError : option PolicyValue;
  onEmitError : option PolicyValue;
  onMiddlewareError : option PolicyValue
}.

Definition DEFAULT_ERROR_POLICY : ErrorPolicy :=
  {| onListenerError := Some (PString POLICY.CONTINUE);
     onEmitError := Some (PString POLICY.CONTINUE);
     onMiddlewareError := Some (PString POLICY.CONTINUE) |}.

(** ** Function references

    JavaScript compares functions by reference.  A listener is a user
    function, or the wrapper closure that one call of [once] creates
    (the stamp tells two such closures apart; it captures the event name
    and the user listener).  A middleware is a user function or a closure
    made by [createLoggerMiddleware] with its options. *)

Inductive ListenerRef :=
| LUser (id : nat)
| LOnce (stamp : nat) (eventName : string) (listener : nat).

Record LoggerOptions := mkLoggerOptions {
  console : bool;
  customLogger : option nat
}.

Inductive MiddlewareRef :=
| MUser (id : nat)
| MLogger (stamp : nat) (options : LoggerOptions).

#[global] Instance Data_eq_dec : EqDecision Data := Z.eq_dec.
#[global] Instance Error_eq_dec : EqDecision Error.
Proof. solve_decision. Defined.
#[global] Instance Event_eq_dec : EqDecision Event.
Proof. solve_decision. Defined.
#[global] Instance ListenerRef_eq_dec : EqDecision ListenerRef.
Proof. solve_decision. Defined.
#[global] Instance LoggerOptions_eq_dec : EqDecision LoggerOptions.
Proof. solve_decision. Defined.
#[global] Instance MiddlewareRef_eq_dec : EqDecision MiddlewareRef.
Proof. solve_decision. Defined.

(** The closure [() => this.off(eventName, listener)] that [on] and [once]
    return. *)
Record Unsubscribe := mkUnsubscribe {
  u_eventName : string;
  u_listener : ListenerRef
}.

(** ** JavaScript [Set]

    ECMAScript keeps a Set's entries in a list; [delete] leaves an empty
    slot behind and [add] appends, so that an iterator already running
    (it holds an index into the list) skips what was deleted ahead of it
    and reaches what was added. *)

Module JsSet.
Abbreviation t A := (list (option A)).
Section JsSet.
Context {A : Type} `{EqDecision A}.

Definition empty : t A := [].

Definition has (s : t A) (x : A) : bool := bool_decide (Some x ∈ s).

Definition add (s : t A) (x : A) : t A :=
  if has s x then s else s ++ [Some x].

Definition delete (s : t A) (x : A) : t A :=
  (fun e => if decide (e = Some x) then None else e) <$> s.

(** [Array.from(s)]: the entries present, in insertion order. *)
Definition values (s : t A) : list A := omap id s.

Definition size (s : t A) : nat := length (values s).

(** [new Set(iterable)] *)
Definition of_list (l : list A) : t A := foldl add empty l.
End JsSet.
End JsSet.

(** ** User code

    The body of a listener, of an error handler or of a middleware layer:
    a sequence of calls into the broker's public interface, effects of its
    own (console-like marks, reads and writes of its own variables),
    try/catch, throw, and, for a middleware layer, calls of [next].
    [N] is the type of the [next] handles in scope: empty for listeners
    and handlers, [unit] in a middleware. *)

Inductive prog (N : Type) : Type :=
| PRet
| PThrow (e : Error)
| PLog (tag : string) (k : prog N)
| PRead (cell : nat) (k : Z -> prog N)
| PWrite (cell : nat) (v : Z) (k : prog N)
| POn (eventName : string) (listener : nat) (k : prog N)
| POnce (eventName : string) (listener : nat) (k : Unsubscribe -> prog N)
| POff (eventName : string) (listener : nat) (k : prog N)
| PUnsubscribe (u : Unsubscribe) (k : prog N)
| PClear (k : prog N)
| PEmit (eventName : string) (d : Data) (k : prog N)
| PUse (middleware : MiddlewareRef) (k : prog N)
| PRemove (middleware : MiddlewareRef) (k : prog N)
| PTry (body : prog N) (handler : Error -> prog N) (k : prog N)
| PNext (n : N) (event : Event) (k : prog N).

Arguments PRet {N}.
Arguments PThrow {N} e.
Arguments PLog {N} tag k.
Arguments PRead {N} cell k.
Arguments PWrite {N} cell v k.
Arguments POn {N} eventName listener k.
Arguments POnce {N} eventName listener k.
Arguments POff {N} eventName listener k.
Arguments PUnsubscribe {N} u k.
Arguments PClear {N} k.
Arguments PEmit {N} eventName d k.
Arguments PUse {N} middleware k.
Arguments PRemove {N} middleware k.
Arguments PTry {N} body handler k.
Arguments PNext {N} n event k.

(** A middleware [(next) => layer]: what calling it with [next] does
    before it returns the layer, and the layer's body. *)
Record MiddlewareBody := mkMiddleware {
  construct : prog unit;
  layer : Event -> prog unit
}.

Record Env := mkEnv {
  listenerBody : nat -> Data -> prog Empty_set;
  handlerBody : nat -> Error -> Event -> prog Empty_set;
  middlewareBody : nat -> MiddlewareBody;
  customLoggerBody : nat -> Event -> prog Empty_set
}.

(** ** The world *)

(** What the run leaves on the console, and two marks the semantics
    writes itself: a user listener or a custom handler was entered. *)
Inductive Output :=
| ConsoleError (type : string) (eventName : string) (error : Error)
| ConsoleWarn (eventName : string) (max : nat)
| ConsoleGroup (eventName : string)
| ConsoleLog (payload : Data)
| ConsoleGroupEnd
| UserLog (tag : string)
| Invoked (listener : nat) (payload : Data)
| Handled (handler : nat) (error : Error) (event : Event).

#[global] Instance Output_eq_dec : EqDecision Output.
Proof. solve_decision. Defined.

(** The private fields of [EventBroker].  [listeners] maps an event name
    to the address of its Set object.  [errorPolicy] holds the slots of the
    policy object; user code as [prog] has it does not write to that
    object. *)
Record Broker := mkBroker {
  listeners : gmap string nat;
  middlewares : JsSet.t MiddlewareRef;
  errorPolicy : ErrorPolicy;
  maxListeners : nat
}.

Record World := mkWorld {
  this : Broker;
  sets : gmap nat (JsSet.t ListenerRef);
  fresh : nat;
  cells : gmap nat Z;
  output : list Output
}.

Inductive Outcome (A : Type) :=
| Normal (a : A)
| Thrown (e : Error)
| Diverge.
Arguments Normal {A} a.
Arguments Thrown {A} e.
Arguments Diverge {A}.

Definition M (A : Type) : Type := World -> Outcome A * World.

Definition ret {A} (a : A) : M A := fun w => (Normal a, w).
Definition throw {A} (e : Error) : M A := fun w => (Thrown e, w).
Definition diverge {A} : M A := fun w => (Diverge, w).

Definition bind {A B} (m : M A) (f : A -> M B) : M B :=
  fun w =>
    match m w with
    | (Normal a, w') => f a w'
    | (Thrown e, w') => (Thrown e, w')
    | (Diverge, w') => (Diverge, w')
    end.

(** [try { body } catch (error) { handler }] *)
Definition try_catch {A} (body : M A) (handler : Error -> M A) : M A :=
  fun w =>
    match body w with
    | (Thrown e, w') => handler e w'
    | r => r
    end.

Notation "'let*' x ':=' m 'in' k" := (bind m (fun x => k))
  (at level 10, x name, m at level 100, k at level 200).
Notation "m '>>' k" := (bind m (fun _ => k))
  (at level 90, right associativity).

Definition print (o : Output) : M unit :=
  fun w => (Normal tt,
            {| this := this w; sets := sets w; fresh := fresh w;
               cells := cells w; output := output w ++ [o] |}).

Definition set_this (b : Broker) (w : World) : World :=
  {| this := b; sets := sets w; fresh := fresh w;
     cells := cells w; output := output w |}.

Definition set_sets (s : gmap nat (JsSet.t ListenerRef)) (w : World) : World :=
  {| this := this w; sets := s; fresh := fresh w;
     cells := cells w; output := output w |}.

Definition set_listeners (m : gmap string nat) (b : Broker) : Broker :=
  {| listeners := m; middlewares := middlewares b;
     errorPolicy := errorPolicy b; maxListeners := maxListeners b |}.

Definition set_middlewares (s : JsSet.t MiddlewareRef) (b : Broker) : Broker :=
  {| listeners := listeners b; middlewares := s;
     errorPolicy := errorPolicy b; maxListeners := maxListeners b |}.

Definition set_fresh (n : nat) (w : World) : World :=
  {| this := this w; sets := sets w; fresh := n;
     cells := cells w; output := output w |}.

Definition set_cells (c : gmap nat Z) (w : World) : World :=
  {| this := this w; sets := sets w; fresh := fresh w;
     cells := c; output := output w |}.

(** The Set object at an address. *)
Definition deref (w : World) (a : nat) : JsSet.t ListenerRef :=
  default JsSet.empty (sets w !! a).

(** ** eventBroker.ts: the registry operations *)

Definition off (eventName : string) (listener : ListenerRef) : M unit :=
  fun w =>
    match listeners (this w) !! eventName with
    | Some a =>
        let w1 := set_sets (<[a := JsSet.delete (deref w a) listener]> (sets w)) w in
        if Nat.eqb (JsSet.size (deref w1 a)) 0
        then (Normal tt,
              set_this (set_listeners (delete eventName (listeners (this w1)))
                                      (this w1)) w1)
        else (Normal tt, w1)
    | None => (Normal tt, w)
    end.

Definition on (eventName : string) (listener : ListenerRef) : M Unsubscribe :=
  fun w =>
    let w1 :=
      match listeners (this w) !! eventName with
      | Some _ => w
      | None =>
          set_fresh (S (fresh w))
            (set_sets (<[fresh w := JsSet.empty]> (sets w))
               (set_this (set_listeners (<[eventName := fresh w]> (listeners (this w)))
                                        (this w)) w))
      end in
    let unsubscribe := mkUnsubscribe eventName listener in
    match listeners (this w1) !! eventName with
    | Some a =>
        let w2 :=
          if Nat.leb (maxListeners (this w1)) (JsSet.size (deref w1 a))
          then snd (print (ConsoleWarn eventName (maxListeners (this w1))) w1)
          else w1 in
        (Normal unsubscribe,
         set_sets (<[a := JsSet.add (deref w2 a) listener]> (sets w2)) w2)
    | None => (Normal unsubscribe, w1)
    end.

Definition once (eventName : string) (listener : nat) : M Unsubscribe :=
  fun w =>
    let wrappedListener := LOnce (fresh w) eventName listener in
    on eventName wrappedListener (set_fresh (S (fresh w)) w).

Definition clear : M unit :=
  fun w => (Normal tt, set_this (set_listeners ∅ (this w)) w).

(** [use] returns the closure [() => this.middlewares.delete(middleware)];
    [remove] is what calling that closure does. *)
Definition use (middleware : MiddlewareRef) : M MiddlewareRef :=
  fun w =>
    (Normal middleware,
     set_this (set_middlewares (JsSet.add (middlewares (this w)) middleware)
                               (this w)) w).

Definition remove (middleware : MiddlewareRef) : M unit :=
  fun w =>
    (Normal tt,
     set_this (set_middlewares (JsSet.delete (middlewares (this w)) middleware)
                               (this w)) w).

(** ** eventBroker.ts: dispatch *)

Definition Next := Event -> M unit.

Definition no_next : Empty_set -> Next := fun n => match n with end.

(** [!policy]: an omitted slot and the empty string are falsy. *)
Definition falsy (policy : option PolicyValue) : bool :=
  match policy with
  | None => true
  | Some (PString s) => bool_decide (s = "")
  | Some (PFunction _) => false
  end.

Section Dispatch.
Variable env : Env.

(** [emit] as user code reaches it from inside a running emission. *)
Variable emit_rec : string -> Data -> M unit.

Fixpoint run {N : Type} (next : N -> Next) (p : prog N) : M unit :=
  match p with
  | PRet => ret tt
  | PThrow e => throw e
  | PLog tag k => print (UserLog tag) >> run next k
  | PRead cell k => fun w => run next (k (default 0%Z (cells w !! cell))) w
  | PWrite cell v k =>
      (fun w => (Normal tt, set_cells (<[cell := v]> (cells w)) w)) >> run next k
  | POn eventName listener k => on eventName (LUser listener) >> run next k
  | POnce eventName listener k =>
      let* u := once eventName listener in run next (k u)
  | POff eventName listener k => off eventName (LUser listener) >> run next k
  | PUnsubscribe u k => off (u_eventName u) (u_listener u) >> run next k
  | PClear k => clear >> run next k
  | PEmit eventName d k => emit_rec eventName d >> run next k
  | PUse middleware k => use middleware >> run next k
  | PRemove middleware k => remove middleware >> run next k
  | PTry body handler k =>
      try_catch (run next body) (fun e => run next (handler e)) >> run next k
  | PNext n event k => next n event >> run next k
  end.

Definition getErrorHandlingStrategy (policy : PolicyValue)
  : Error -> Event -> ErrorType -> M bool :=
  match policy with
  | PFunction h =>
      fun error event _ =>
        print (Handled h error event) >>
        run no_next (handlerBody env h error event) >>
        ret true
  | PString s =>
      if decide (s = POLICY.CONTINUE) then
        fun error event type =>
          print (ConsoleError (ERROR_TYPE type) (name event) error) >>
          ret true
      else if decide (s = POLICY.STOP) then
        fun error _ _ => throw error
      else
        fun _ _ _ => ret true
  end.

Definition policy_map (p : ErrorPolicy) (type : ErrorType) : option PolicyValue :=
  match type with
  | LISTENER => onListenerError p
  | EMIT => onEmitError p
  | MIDDLEWARE => onMiddlewareError p
  end.

Definition handleError (error : Error) (event : Event) (type : ErrorType) : M bool :=
  fun w =>
    let policy := policy_map (errorPolicy (this w)) type in
    match policy with
    | Some p =>
        if falsy policy
        then throw (mkError (String.append "Invalid error type: " (ERROR_TYPE type))) w
        else getErrorHandlingStrategy p error event type w
    | None =>
        throw (mkError (String.append "Invalid error type: " (ERROR_TYPE type))) w
    end.

(** Calling a user listener function. *)
Definition call_user (listener : nat) (d : Data) : M unit :=
  print (Invoked listener d) >> run no_next (listenerBody env listener d).

(** Calling what the registry holds: the user function itself, or the
    [wrappedListener] of [once]. *)
Definition call_listener (l : ListenerRef) (d : Data) : M unit :=
  match l with
  | LUser listener => call_user listener d
  | LOnce stamp eventName listener =>
      call_user listener d >> off eventName (LOnce stamp eventName listener)
  end.

(** The body of the loop of the terminal stage:
    [try { listener(event.data) } catch (error) { this.handleError(...) }] *)
Definition visit (event : Event) (listener : ListenerRef) : M unit :=
  try_catch
    (call_listener listener (data event))
    (fun error =>
       handleError error (mkEvent (name event) (data event)) LISTENER >>
       ret tt).

(** [for (const listener of set) { ... }] over the Set object at address
    [a], from entry [index] on.  The iterator reads the entry list as it
    is when it gets there. *)
Fixpoint for_of (fuel : nat) (a : nat) (event : Event) (index : nat) : M unit :=
  match fuel with
  | O => diverge
  | S fuel' =>
      fun w =>
        match deref w a !! index with
        | None => (Normal tt, w)
        | Some None => for_of fuel' a event (S index) w
        | Some (Some listener) =>
            (visit event listener >> for_of fuel' a event (S index)) w
        end
  end.

(** The terminal stage of one [emit(eventName, _)]. *)
Definition terminal (fuel : nat) (eventName : string) : Next :=
  fun event w =>
    match listeners (this w) !! eventName with
    | Some a => for_of fuel a event 0 w
    | None => (Normal tt, w)
    end.

(** middlewares/logger.ts: the layer that [createLoggerMiddleware(options)]
    returns for [next]. *)
Definition createLoggerMiddleware (options : LoggerOptions) (next : Next) : Next :=
  fun event =>
    (if console options
     then print (ConsoleGroup (name event)) >>
          print (ConsoleLog (data event)) >>
          print ConsoleGroupEnd
     else ret tt) >>
    match customLogger options with
    | Some c => run no_next (customLoggerBody env c event)
    | None => ret tt
    end >>
    next event.

(** [middleware(next)] *)
Definition apply_middleware (middleware : MiddlewareRef) (next : Next) : M Next :=
  match middleware with
  | MUser id =>
      run (fun _ => next) (construct (middlewareBody env id)) >>
      ret (fun event => run (fun _ => next) (layer (middlewareBody env id) event))
  | MLogger _ options => ret (createLoggerMiddleware options next)
  end.

(** [Array.from(this.middlewares).reduceRight(callback, terminal)] with
    the guarded callback of [emit]. *)
Fixpoint reduceRight (ms : list MiddlewareRef) (eventName : string) (d : Data)
    (terminal : Next) : M Next :=
  match ms with
  | [] => ret terminal
  | middleware :: rest =>
      let* next := reduceRight rest eventName d terminal in
      try_catch
        (apply_middleware middleware next)
        (fun error =>
           let* handled := handleError error (mkEvent eventName d) MIDDLEWARE in
           if handled : bool then ret next else throw error)
  end.

(** What the outer [try] of [emit] guards: composing the layers and
    calling the composed function. *)
Definition pipeline (fuel : nat) (eventName : string) (d : Data) : M unit :=
  fun w =>
    (let* composed :=
       reduceRight (JsSet.values (middlewares (this w))) eventName d
                   (terminal fuel eventName) in
     composed (mkEvent eventName d)) w.

Definition emit_body (fuel : nat) (eventName : string) (d : Data) : M unit :=
  try_catch
    (pipeline fuel eventName d)
    (fun error => handleError error (mkEvent eventName d) EMIT >> ret tt).
End Dispatch.

(** [emit]: the fuel bounds the entries one emission visits and the depth
    of emissions started from inside user code. *)
Fixpoint emit (env : Env) (fuel : nat) : string -> Data -> M unit :=
  match fuel with
  | O => fun _ _ => diverge
  | S fuel' => emit_body env (emit env fuel') fuel'
  end.

(** ** The constructor and index.ts *)

Module Options.
Record t := mk {
  logger : bool;
  maxListeners : option nat;
  errorPolicy : option ErrorPolicy;
  middlewares : option nat;
  errorHandler : option nat
}.
(** [{}] *)
Definition none : t := mk false None None None None.
End Options.

(** The caller's heap: the arrays that [options.middlewares] may point to,
    and the next unused reference. *)
Record Store := mkStore {
  arrays : gmap nat (list MiddlewareRef);
  next_ref : nat
}.

Definition constructor (options : Options.t) : Store -> Broker * Store :=
  fun st =>
    let '(a, st1) :=
      match Options.middlewares options with
      | Some a => (a, st)
      | None => (next_ref st,
                 mkStore (<[next_ref st := []]> (arrays st)) (S (next_ref st)))
      end in
    let st2 :=
      if Options.logger options
      then mkStore (<[a := default [] (arrays st1 !! a)
                           ++ [MLogger (next_ref st1) (mkLoggerOptions true None)]]>
                      (arrays st1))
                   (S (next_ref st1))
      else st1 in
    (mkBroker ∅
              (JsSet.of_list (default [] (arrays st2 !! a)))
              (default DEFAULT_ERROR_POLICY (Options.errorPolicy options))
              (match Options.maxListeners options with
               | Some (S n) => S n
               | _ => DEFAULT_MAX_LISTENERS
               end),
     st2).

Definition createEventBroker (options : option Options.t) : Store -> Broker * Store :=
  constructor (default Options.none options).

(** The world in which a broker starts its life. *)
Definition boot (b : Broker) : World :=
  {| this := b; sets := ∅; fresh := 0; cells := ∅; output := [] |}.

(** * Specification *)

(** ** Properties of computations *)

(** [m] keeps [P]: whatever the outcome, [P] holds of the world it leaves. *)
Definition preserves (P : World -> Prop) {A : Type} (m : M A) : Prop :=
  forall w, P w -> P (snd (m w)).

(** The same for a computation that returns a dispatch function: the
    function it returns keeps [P] too. *)
Definition preserves_next (P : World -> Prop) (m : M Next) : Prop :=
  forall w, P w ->
    P (snd (m w)) /\
    forall f, fst (m w) = Normal f -> forall event, preserves P (f event).

(** [P] is kept by every primitive step that user code or the dispatch can
    take. *)
Record stable (P : World -> Prop) : Prop := mkStable {
  stable_print : forall o, preserves P (print o);
  stable_cells : forall c w, P w -> P (set_cells c w);
  stable_on : forall k l, preserves P (on k l);
  stable_once : forall k l, preserves P (once k l);
  stable_off : forall k l, preserves P (off k l);
  stable_clear : preserves P clear;
  stable_use : forall m, preserves P (use m);
  stable_remove : forall m, preserves P (remove m)
}.

(** ** The listener registry *)

(** Every event name of the registry maps to a live Set object that is not
    empty, and no two names share a Set object. *)
Definition registry_inv (w : World) : Prop :=
  (forall k a, listeners (this w) !! k = Some a ->
     a < fresh w /\ JsSet.size (deref w a) <> 0) /\
  (forall k1 k2 a, listeners (this w) !! k1 = Some a ->
     listeners (this w) !! k2 = Some a -> k1 = k2).

(** A call of a public operation by the broker's owner. *)
Inductive Call :=
| CallOn (eventName : string) (listener : nat)
| CallOnce (eventName : string) (listener : nat)
| CallOff (eventName : string) (listener : ListenerRef)
| CallClear
| CallEmit (fuel : nat) (eventName : string) (d : Data)
| CallUse (middleware : MiddlewareRef).

Definition perform (env : Env) (c : Call) : M unit :=
  match c with
  | CallOn k l => on k (LUser l) >> ret tt
  | CallOnce k l => once k l >> ret tt
  | CallOff k l => off k l
  | CallClear => clear
  | CallEmit fuel k d => emit env fuel k d
  | CallUse m => use m >> ret tt
  end.

(** The world after a sequence of calls; an exception of one call does not
    keep the owner from making the next. *)
Definition perform_all (env : Env) (cs : list Call) (w : World) : World :=
  foldl (fun w c => snd (perform env c w)) w cs.

(** ** Error policies *)

(** User code with no [throw] that could leave it: every [throw] sits in
    the body of a [try]. *)
Fixpoint nothrow {N : Type} (p : prog N) : Prop :=
  match p with
  | PRet => True
  | PThrow _ => False
  | PLog _ k => nothrow k
  | PRead _ k => forall v, nothrow (k v)
  | PWrite _ _ k => nothrow k
  | POn _ _ k => nothrow k
  | POnce _ _ k => forall u, nothrow (k u)
  | POff _ _ k => nothrow k
  | PUnsubscribe _ k => nothrow k
  | PClear k => nothrow k
  | PEmit _ _ k => nothrow k
  | PUse _ k => nothrow k
  | PRemove _ k => nothrow k
  | PTry _ handler k => (forall e, nothrow (handler e)) /\ nothrow k
  | PNext _ _ _ => False
  end.

(** A slot resolves to "continue": it holds the string, or a custom
    handler, which returns to the strategy that then answers [true]. *)
Definition resolves_to_continue (env : Env) (slot : option PolicyValue) : Prop :=
  match slot with
  | Some (PString s) => s = POLICY.CONTINUE
  | Some (PFunction h) => forall error event, nothrow (handlerBody env h error event)
  | None => False
  end.

(** ** The iteration of the terminal stage *)


(** The user listeners entered, in order, as the output records them. *)
Definition invoked (out : list Output) : list (nat * Data) :=
  omap (fun o => match o with Invoked l d => Some (l, d) | _ => None end) out.

(** [m] never ends in an exception when started in a world where [Q]
    holds. *)
Definition quiet (Q : World -> Prop) {A : Type} (m : M A) : Prop :=
  forall w, Q w -> forall e, fst (m w) <> Thrown e.

(** The error policy of the broker is [p]. *)
Definition has_policy (p : ErrorPolicy) (w : World) : Prop :=
  errorPolicy (this w) = p.

(** The output only grows: [pre] is still how it starts. *)
Definition output_extends (pre : list Output) (w : World) : Prop :=
  pre `prefix_of` output w.

(** ** Scenarios *)

Module Scenario.
Definition boom : Error := mkError "boom".

(** A middleware that only forwards. *)
Definition pass_through : MiddlewareBody :=
  mkMiddleware PRet (fun event => PNext tt event PRet).

(** An environment in which only the listeners matter. *)
Definition listeners_only (body : nat -> Data -> prog Empty_set) : Env :=
  mkEnv body (fun _ _ _ => PRet) (fun _ => pass_through) (fun _ _ => PRet).

Definition symbolic (s : string) : option PolicyValue := Some (PString s).

(** [createEventBroker({ errorPolicy })], or [createEventBroker()]. *)
Definition new_broker (p : option ErrorPolicy) : World :=
  boot (fst (createEventBroker (Some (Options.mk false None p None None))
                               (mkStore ∅ 0))).

(** Listener 0 throws, the others leave a mark. *)
Definition first_throws : Env :=
  listeners_only (fun id _ => match id with
                              | 0 => PThrow boom
                              | _ => PLog "ran" PRet
                              end).

(** Listener 1 throws, the others leave a mark. *)
Definition second_throws : Env :=
  listeners_only (fun id _ => match id with
                              | 1 => PThrow boom
                              | _ => PLog "ran" PRet
                              end).

Definition stop_stop : ErrorPolicy :=
  mkErrorPolicy (symbolic POLICY.STOP) (symbolic POLICY.STOP)
                (symbolic POLICY.CONTINUE).


(** Three listeners on "k" under stop/stop. *)
Definition three_listeners : World :=
  perform_all second_throws [CallOn "k" 0; CallOn "k" 1; CallOn "k" 2]
              (new_broker (Some stop_stop)).

(** Two listeners on "k" under the default policy. *)
Definition two_listeners : World :=
  perform_all first_throws [CallOn "k" 0; CallOn "k" 1] (new_broker None).

(** One throwing listener on "k", "stop" for listeners and "continue"
    for emit. *)
Definition one_listener (p : ErrorPolicy) : World :=
  perform_all first_throws [CallOn "k" 0] (new_broker (Some p)).

(** The listeners throw, and so does every custom handler. *)
Definition handlers_throw : Env :=
  mkEnv (fun _ _ => PThrow boom)
        (fun _ _ _ => PThrow (mkError "handler failed"))
        (fun _ => pass_through)
        (fun _ _ => PRet).

End Scenario.

Module Mutation.
(** Listener 0 removes listener 1; listener 3 adds listener 2; the others
    leave a mark. *)
Definition env : Env :=
  Scenario.listeners_only
    (fun id _ => match id with
                 | 0 => POff "k" 1 PRet
                 | 3 => POn "k" 2 PRet
                 | _ => PLog "ran" PRet
                 end).

(** [on("k", l0); on("k", l1)] *)
Definition remover_first : World :=
  perform_all env [CallOn "k" 0; CallOn "k" 1] (Scenario.new_broker None).

(** [on("k", l3)] *)
Definition adder_alone : World :=
  perform_all env [CallOn "k" 3] (Scenario.new_broker None).

(** The members of the listener set of [k], as [emit] finds them. *)
Definition members (w : World) (k : string) : list ListenerRef :=
  match listeners (this w) !! k with
  | Some a => JsSet.values (deref w a)
  | None => []
  end.
End Mutation.

Module OneShot.
(** [once("k", l0)] with a listener that throws, then two emissions. *)
Definition throwing : World :=
  perform_all Scenario.first_throws
    [CallOnce "k" 0; CallEmit 4 "k" 1%Z; CallEmit 4 "k" 2%Z]
    (Scenario.new_broker None).

(** The same with a listener that returns. *)
Definition returning : World :=
  perform_all Scenario.first_throws
    [CallOnce "k" 1; CallEmit 4 "k" 1%Z; CallEmit 4 "k" 2%Z]
    (Scenario.new_broker None).

(** A listener that, the first time it runs, emits the event again. *)
Definition emits_again : Env :=
  Scenario.listeners_only
    (fun _ _ => PRead 0 (fun seen =>
                  if Z.eqb seen 0 then PWrite 0 1%Z (PEmit "k" 9%Z PRet) else PRet)).

Definition reentrant : World :=
  perform_all emits_again [CallOnce "k" 0; CallEmit 5 "k" 1%Z]
    (Scenario.new_broker None).
End OneShot.

Module Faulty.
(** Middleware 0 throws when its layer is invoked, middleware 1 when it
    is constructed.  Handler 0 leaves a mark. *)
Definition env : Env :=
  mkEnv (fun _ _ => PLog "listener ran" PRet)
        (fun _ _ _ => PLog "middleware handler ran" PRet)
        (fun id => match id with
                   | 0 => mkMiddleware PRet (fun _ => PThrow Scenario.boom)
                   | _ => mkMiddleware (PThrow Scenario.boom)
                                       (fun event => PNext tt event PRet)
                   end)
        (fun _ _ => PRet).

(** [onMiddlewareError] is a custom handler, the other slots "continue". *)
Definition policy : ErrorPolicy :=
  mkErrorPolicy (Scenario.symbolic POLICY.CONTINUE)
                (Scenario.symbolic POLICY.CONTINUE)
                (Some (PFunction 0)).

Definition with_middleware (id : nat) : World :=
  perform_all env [CallUse (MUser id); CallOn "k" 0]
              (Scenario.new_broker (Some policy)).
End Faulty.

Module Omitted.
(** [{ onMiddlewareError: "continue" }]: two slots are left out. *)
Definition policy : ErrorPolicy :=
  mkErrorPolicy None None (Scenario.symbolic POLICY.CONTINUE).

Definition world : World :=
  perform_all Scenario.first_throws [CallOn "k" 0; CallOn "k" 1]
              (Scenario.new_broker (Some policy)).

Definition invalid (type : ErrorType) : Error :=
  mkError (String.append "Invalid error type: " (ERROR_TYPE type)).
End Omitted.

Module Caller.
(** The caller's array [[m0]] at reference 0. *)
Definition store : Store := mkStore {[ 0 := [MUser 0] ]} 1.

(** [{ logger: true, middlewares: <the array at 0> }] *)
Definition options : Options.t := Options.mk true None None (Some 0) None.

Definition logger : MiddlewareRef := MLogger 1 (mkLoggerOptions true None).
End Caller.

Module Order.
(** Middlewares 0 and 1 mark their logic before and after [next]; the
    listener leaves a mark. *)
Definition env : Env :=
  mkEnv (fun _ _ => PLog "L" PRet)
        (fun _ _ _ => PRet)
        (fun id => match id with
                   | 0 => mkMiddleware PRet
                            (fun event => PLog "A before"
                               (PNext tt event (PLog "A after" PRet)))
                   | _ => mkMiddleware PRet
                            (fun event => PLog "B before"
                               (PNext tt event (PLog "B after" PRet)))
                   end)
        (fun _ _ => PRet).

(** [on("k", L)] on a new broker. *)
Definition one_listener : World :=
  perform_all env [CallOn "k" 0] (Scenario.new_broker None).
End Order.

(** ** Further notions *)

(** User code that stays within itself: it marks, reads and writes its own
    variables, throws and catches, and never calls into the broker. *)
Fixpoint inert {N : Type} (p : prog N) : Prop :=
  match p with
  | PRet => True
  | PThrow _ => True
  | PLog _ k => inert k
  | PRead _ k => forall v, inert (k v)
  | PWrite _ _ k => inert k
  | PTry body handler k => inert body /\ (forall e, inert (handler e)) /\ inert k
  | _ => False
  end.

(** The user function behind an entry of a listener set, with the payload
    it is called with. *)
Definition called_as (d : Data) (l : ListenerRef) : nat * Data :=
  match l with
  | LUser id => (id, d)
  | LOnce _ _ id => (id, d)
  end.

Definition is_user (l : ListenerRef) : Prop :=
  match l with
  | LUser _ => True
  | LOnce _ _ _ => False
  end.

(** [w'] has the broker and the Set objects of [w]. *)
Definition same_registry (w w' : World) : Prop :=
  this w' = this w /\ sets w' = sets w /\ fresh w' = fresh w.

(** What is fixed when the broker is constructed. *)
Definition has_config (p : ErrorPolicy) (n : nat) (w : World) : Prop :=
  errorPolicy (this w) = p /\ maxListeners (this w) = n.

(** No Set object holds a listener twice. *)
Definition sets_nodup (w : World) : Prop :=
  forall a s, sets w !! a = Some s -> NoDup (JsSet.values s).

(** The three lines the logger middleware writes for an event. *)
Definition logged (event : Event) : list Output :=
  [ConsoleGroup (name event); ConsoleLog (data event); ConsoleGroupEnd].

Definition add_output (os : list Output) (w : World) : World :=
  {| this := this w; sets := sets w; fresh := fresh w;
     cells := cells w; output := output w ++ os |}.

Module Extra.
(** Listeners 0, 1 and 2: the first marks, the second throws, the third
    writes a variable of its own. *)
Definition env : Env :=
  Scenario.listeners_only
    (fun id _ => match id with
                 | 0 => PLog "first" PRet
                 | 1 => PThrow Scenario.boom
                 | _ => PWrite 0 5%Z PRet
                 end).

(** [on("k", l0); on("k", l1); on("k", l2)] on a default broker. *)
Definition three : World :=
  perform_all env [CallOn "k" 0; CallOn "k" 1; CallOn "k" 2]
    (Scenario.new_broker None).

(** A default broker. *)
Definition fresh_world : World := Scenario.new_broker None.

(** A store with the caller's array [[m0; m1]] at reference 0. *)
Definition store : Store := mkStore {[ 0 := [MUser 0; MUser 1] ]} 1.

(** The caller's array holds middleware 0 twice. *)
Definition repeated : Store := mkStore {[ 0 := [MUser 0; MUser 1; MUser 0] ]} 1.

Definition without_logger : Options.t := Options.mk false None None (Some 0) None.

Definition with_logger : Options.t := Options.mk true None None (Some 0) None.

(** Middleware 0 throws while its layer is constructed. *)
Definition broken_construction_env : Env :=
  mkEnv (fun _ _ => PLog "listener ran" PRet)
        (fun _ _ _ => PRet)
        (fun _ => mkMiddleware (PThrow Scenario.boom) (fun event => PNext tt event PRet))
        (fun _ _ => PRet).

(** [createEventBroker({ logger: true })] with one listener on "k". *)
Definition logging : World :=
  perform_all env [CallOn "k" 0]
    (boot (fst (createEventBroker (Some (Options.mk true None None None None))
                                  (mkStore ∅ 0)))).

(** One middleware, one listener on "k", default policy. *)
Definition guarded : World :=
  perform_all broken_construction_env [CallUse (MUser 0); CallOn "k" 0]
    (Scenario.new_broker None).

End Extra.

Module Rewrite.
(** Middleware 0 hands on an event with another name and a doubled payload;
    the listeners leave a mark. *)
Definition rename (event : Event) : Event :=
  mkEvent "other" (2 * data event)%Z.

Definition env : Env :=
  mkEnv (fun _ _ => PLog "ran" PRet)
        (fun _ _ _ => PRet)
        (fun _ => mkMiddleware PRet (fun event => PNext tt (rename event) PRet))
        (fun _ _ => PRet).

(** [use(m0); on("k", l0); on("other", l1)] on a default broker. *)
Definition world : World :=
  perform_all env [CallUse (MUser 0); CallOn "k" 0; CallOn "other" 1]
    (Scenario.new_broker None).
End Rewrite.

(** ** Middlewares that only pass the event on *)




Module Intercept.
(** Middleware 0 catches whatever [next] throws:
    [(next) => (event) => { try { next(event) } catch {} }].
    Listener 0 throws, the others leave a mark. *)
Definition env : Env :=
  mkEnv (fun id _ => match id with
                     | 0 => PThrow Scenario.boom
                     | _ => PLog "ran" PRet
                     end)
        (fun _ _ _ => PRet)
        (fun _ => mkMiddleware PRet
                    (fun event => PTry (PNext tt event PRet) (fun _ => PRet) PRet))
        (fun _ _ => PRet).

(** [use(m0); on("k", l0); on("k", l1)] under stop/stop. *)
Definition world : World :=
  perform_all env [CallUse (MUser 0); CallOn "k" 0; CallOn "k" 1]
    (Scenario.new_broker (Some Scenario.stop_stop)).

(** Listener 0 unregisters listener 1 and then throws. *)
Definition unregistering : Env :=
  Scenario.listeners_only
    (fun id _ => match id with
                 | 0 => POff "k" 1 (PThrow Scenario.boom)
                 | _ => PLog "ran" PRet
                 end).

(** [on("k", l0); on("k", l1)] under the default policy. *)
Definition two_listeners : World :=
  perform_all unregistering [CallOn "k" 0; CallOn "k" 1] (Scenario.new_broker None).

(** [createEventBroker({ logger: true, errorPolicy })] *)
Definition logging_broker (p : ErrorPolicy) : World :=
  boot (fst (createEventBroker (Some (Options.mk true None (Some p) None None))
                               (mkStore ∅ 0))).

(** Three listeners on "k" behind the logger, under stop/stop. *)
Definition three_listeners : World :=
  perform_all Scenario.second_throws [CallOn "k" 0; CallOn "k" 1; CallOn "k" 2]
    (logging_broker Scenario.stop_stop).


(** One throwing listener on "k" behind the logger. *)
Definition one_listener (p : ErrorPolicy) : World :=
  perform_all Scenario.first_throws [CallOn "k" 0] (logging_broker p).


End Intercept.

(** * Proofs *)

(** ** The monad *)

Lemma preserves_ret P {A} (a : A) : preserves P (ret a).
Proof. intros w Hw. exact Hw. Qed.

Lemma preserves_throw P {A} e : preserves P (@throw A e).
Proof. intros w Hw. exact Hw. Qed.

Lemma preserves_diverge P {A} : preserves P (@diverge A).
Proof. intros w Hw. exact Hw. Qed.

Lemma preserves_bind P {A B} (m : M A) (f : A -> M B) :
  preserves P m -> (forall a, preserves P (f a)) -> preserves P (bind m f).
Proof.
  intros Hm Hf w Hw. unfold bind.
  specialize (Hm w Hw). destruct (m w) as [[a|e|] w']; simpl in *; auto.
  apply Hf, Hm.
Qed.

Lemma preserves_try_catch P {A} (m : M A) (h : Error -> M A) :
  preserves P m -> (forall e, preserves P (h e)) -> preserves P (try_catch m h).
Proof.
  intros Hm Hh w Hw. unfold try_catch.
  specialize (Hm w Hw). destruct (m w) as [[a|e|] w']; simpl in *; auto.
  apply Hh, Hm.
Qed.

(** ** What the dispatch keeps *)

Section Preservation.
Variable P : World -> Prop.
Hypothesis HP : stable P.
Variable env : Env.
Variable emit_rec : string -> Data -> M unit.
Hypothesis Hrec : forall k d, preserves P (emit_rec k d).

Lemma run_preserves {N} (next : N -> Next) (p : prog N) :
  (forall n event, preserves P (next n event)) ->
  preserves P (run emit_rec next p).
Proof using HP Hrec.
  intros Hnext. destruct HP.
  induction p; simpl;
    try (apply preserves_bind; [ solve [auto] | intros; solve [auto] ]).
  - apply preserves_ret.
  - apply preserves_throw.
  - intros w Hw. apply H, Hw.
  - apply preserves_bind; [ | auto].
    intros w Hw. simpl. auto.
  - apply preserves_bind; [ | auto].
    apply preserves_try_catch; auto.
Qed.

Lemma getErrorHandlingStrategy_preserves policy error event type :
  preserves P (getErrorHandlingStrategy env emit_rec policy error event type).
Proof using HP Hrec.
  destruct policy as [s|h]; simpl.
  - repeat case_decide.
    + apply preserves_bind; [apply HP | intros; apply preserves_ret].
    + apply preserves_throw.
    + apply preserves_ret.
  - apply preserves_bind; [apply HP | intros].
    apply preserves_bind; [ | intros; apply preserves_ret].
    apply run_preserves. intros [].
Qed.

Lemma handleError_preserves error event type :
  preserves P (handleError env emit_rec error event type).
Proof using HP Hrec.
  intros w Hw. unfold handleError.
  destruct (policy_map _ _) as [p|]; [ | exact Hw].
  destruct (falsy _); [exact Hw | ].
  apply getErrorHandlingStrategy_preserves, Hw.
Qed.

Lemma call_user_preserves l d : preserves P (call_user env emit_rec l d).
Proof using HP Hrec.
  apply preserves_bind; [apply HP | intros].
  apply run_preserves. intros [].
Qed.

Lemma call_listener_preserves l d : preserves P (call_listener env emit_rec l d).
Proof using HP Hrec.
  destruct l; simpl.
  - apply call_user_preserves.
  - apply preserves_bind; [apply call_user_preserves | intros; apply HP].
Qed.

Lemma visit_preserves event l : preserves P (visit env emit_rec event l).
Proof using HP Hrec.
  apply preserves_try_catch; [apply call_listener_preserves | intros].
  apply preserves_bind; [apply handleError_preserves | intros; apply preserves_ret].
Qed.

Lemma for_of_preserves fuel a event i :
  preserves P (for_of env emit_rec fuel a event i).
Proof using HP Hrec.
  revert i. induction fuel as [|fuel IH]; intros i w Hw; simpl; [exact Hw | ].
  destruct (deref w a !! i) as [[l|]|]; [ | apply IH, Hw | exact Hw].
  apply preserves_bind; [apply visit_preserves | intros; apply IH | exact Hw].
Qed.

Lemma terminal_preserves fuel k event :
  preserves P (terminal env emit_rec fuel k event).
Proof using HP Hrec.
  intros w Hw. unfold terminal.
  destruct (listeners (this w) !! k); [apply for_of_preserves, Hw | exact Hw].
Qed.

Lemma createLoggerMiddleware_preserves options (next : Next) event :
  (forall ev, preserves P (next ev)) ->
  preserves P (createLoggerMiddleware env emit_rec options next event).
Proof using HP Hrec.
  intros Hnext. unfold createLoggerMiddleware.
  apply preserves_bind; [ | intros].
  - destruct (console options); [ | apply preserves_ret].
    repeat (apply preserves_bind; [apply HP | intros]). apply HP.
  - apply preserves_bind; [ | intros; apply Hnext].
    destruct (customLogger options); [ | apply preserves_ret].
    apply run_preserves. intros [].
Qed.

Lemma apply_middleware_preserves m (next : Next) :
  (forall ev, preserves P (next ev)) ->
  preserves_next P (apply_middleware env emit_rec m next).
Proof using HP Hrec.
  intros Hnext w Hw. destruct m as [id|stamp options]; simpl.
  - pose proof (run_preserves (fun _ : unit => next)
                  (construct (middlewareBody env id)) (fun _ => Hnext) w Hw) as Hc.
    unfold bind.
    destruct (run emit_rec _ (construct _) w) as [[[]|e|] w']; simpl in *;
      (split; [exact Hc | ]); intros f Hf; try discriminate.
    injection Hf as <-. intros event.
    apply run_preserves. intros _. apply Hnext.
  - split; [exact Hw | ]. intros f Hf. injection Hf as <-.
    intros event. apply createLoggerMiddleware_preserves, Hnext.
Qed.

Lemma reduceRight_preserves ms k d (t : Next) :
  (forall ev, preserves P (t ev)) ->
  preserves_next P (reduceRight env emit_rec ms k d t).
Proof using HP Hrec.
  intros Ht. induction ms as [|m rest IH]; intros w Hw; simpl.
  - split; [exact Hw | ]. intros f Hf. injection Hf as <-. exact Ht.
  - unfold bind. destruct (IH w Hw) as [Hw1 Hf1].
    destruct (reduceRight env emit_rec rest k d t w) as [[next|e|] w1];
      simpl in *; try (split; [exact Hw1 | discriminate]).
    specialize (Hf1 next eq_refl).
    unfold try_catch.
    destruct (apply_middleware_preserves m next Hf1 w1 Hw1) as [Hw2 Hf2].
    destruct (apply_middleware env emit_rec m next w1) as [[f|e|] w2];
      simpl in *.
    + split; [exact Hw2 | exact Hf2].
    + pose proof (handleError_preserves e (mkEvent k d) MIDDLEWARE w2 Hw2) as Hh.
      destruct (handleError env emit_rec e (mkEvent k d) MIDDLEWARE w2)
        as [[[]|e'|] w3]; simpl in *; (split; [exact Hh | ]);
        intros f Hf; try discriminate.
      injection Hf as <-. exact Hf1.
    + split; [exact Hw2 | discriminate].
Qed.

Lemma pipeline_preserves fuel k d : preserves P (pipeline env emit_rec fuel k d).
Proof using HP Hrec.
  intros w Hw. unfold pipeline, bind.
  destruct (reduceRight_preserves (JsSet.values (middlewares (this w))) k d
              (terminal env emit_rec fuel k)
              (terminal_preserves fuel k) w Hw) as [Hw1 Hf1].
  destruct (reduceRight env emit_rec _ k d _ w) as [[f|e|] w1]; simpl in *;
    try exact Hw1.
  apply (Hf1 f eq_refl), Hw1.
Qed.

Lemma emit_body_preserves fuel k d : preserves P (emit_body env emit_rec fuel k d).
Proof using HP Hrec.
  apply preserves_try_catch; [apply pipeline_preserves | intros].
  apply preserves_bind; [apply handleError_preserves | intros; apply preserves_ret].
Qed.
End Preservation.

Lemma emit_preserves P env fuel k d : stable P -> preserves P (emit env fuel k d).
Proof.
  intros HP. revert k d. induction fuel as [|fuel IH]; intros k d; simpl.
  - apply preserves_diverge.
  - apply emit_body_preserves; assumption.
Qed.

(** ** JavaScript sets *)

Section JsSetFacts.
Context {A : Type} `{EqDecision A}.
Implicit Types (s : list (option A)) (x : A).

Lemma values_snoc s x : JsSet.values (s ++ [Some x]) = JsSet.values s ++ [x].
Proof. unfold JsSet.values. by rewrite omap_app. Qed.

Lemma elem_of_values s x : x ∈ JsSet.values s <-> Some x ∈ s.
Proof.
  unfold JsSet.values. rewrite list_elem_of_omap. split.
  - intros (o & Ho & Hx). simpl in Hx. by subst o.
  - intros Hx. by exists (Some x).
Qed.

Lemma has_true s x : JsSet.has s x = true <-> Some x ∈ s.
Proof. unfold JsSet.has. by rewrite bool_decide_eq_true. Qed.

Lemma has_false s x : JsSet.has s x = false <-> Some x ∉ s.
Proof. unfold JsSet.has. by rewrite bool_decide_eq_false. Qed.

Lemma elem_of_add s x : Some x ∈ JsSet.add s x.
Proof.
  unfold JsSet.add. destruct (JsSet.has s x) eqn:Hhas.
  - by apply has_true.
  - apply elem_of_app. right. apply list_elem_of_singleton. reflexivity.
Qed.

Lemma size_add s x : JsSet.size (JsSet.add s x) <> 0.
Proof.
  unfold JsSet.size. pose proof (elem_of_add s x) as Hx.
  apply elem_of_values in Hx.
  destruct (JsSet.values (JsSet.add s x)); [ | simpl; lia].
  by apply not_elem_of_nil in Hx.
Qed.

Lemma lookup_delete_entry s x i :
  JsSet.delete s x !! i =
  (fun e => if decide (e = Some x) then None else e) <$> (s !! i).
Proof. unfold JsSet.delete. apply list_lookup_fmap. Qed.

Lemma lookup_delete_hit s x i :
  s !! i = Some (Some x) -> JsSet.delete s x !! i = Some None.
Proof.
  intros Hi. rewrite lookup_delete_entry, Hi. simpl.
  by rewrite decide_True.
Qed.

Lemma lookup_add_new s x :
  JsSet.has s x = false -> JsSet.add s x !! length s = Some (Some x).
Proof.
  intros Hhas. unfold JsSet.add.
  destruct (JsSet.has s x); [discriminate | ].
  rewrite lookup_app_r by lia. by rewrite Nat.sub_diag.
Qed.

Lemma lookup_add_old s x i e : s !! i = Some e -> JsSet.add s x !! i = Some e.
Proof.
  intros Hi. unfold JsSet.add. destruct (JsSet.has s x); [exact Hi | ].
  by apply lookup_app_l_Some.
Qed.
End JsSetFacts.

(** ** The heap of Set objects *)

Lemma deref_insert_eq w a s : deref (set_sets (<[a := s]> (sets w)) w) a = s.
Proof. unfold deref. simpl. by rewrite lookup_insert_eq. Qed.

Lemma deref_insert_ne w a b s :
  a <> b -> deref (set_sets (<[a := s]> (sets w)) w) b = deref w b.
Proof. intros Hab. unfold deref. simpl. by rewrite lookup_insert_ne. Qed.

(** ** The registry never holds an empty set *)

Lemma registry_inv_print o : preserves registry_inv (print o).
Proof. intros w Hw. exact Hw. Qed.

Lemma registry_inv_off k l : preserves registry_inv (off k l).
Proof.
  intros w [Hne Hinj]. unfold off.
  destruct (listeners (this w) !! k) as [a|] eqn:Hk; [ | by split].
  set (w1 := set_sets _ w).
  assert (Hd : forall b, b <> a -> deref w1 b = deref w b)
    by (intros b Hb; apply deref_insert_ne; congruence).
  destruct (Nat.eqb (JsSet.size (deref w1 a)) 0) eqn:Hsz; simpl.
  - split; simpl.
    + intros k' a' Hk'. apply lookup_delete_Some in Hk' as [Hkk' Hk'].
      destruct (Hne k' a' Hk') as [Hlt Hsize]. split; [exact Hlt | ].
      change (JsSet.size (deref w1 a') <> 0).
      rewrite Hd; [exact Hsize | ].
      intros ->. apply Hkk'. by apply (Hinj k k' a).
    + intros k1 k2 b H1 H2.
      apply lookup_delete_Some in H1 as [_ H1].
      apply lookup_delete_Some in H2 as [_ H2].
      by apply (Hinj k1 k2 b).
  - apply Nat.eqb_neq in Hsz. split; [ | exact Hinj].
    intros k' a' Hk'. destruct (Hne k' a' Hk') as [Hlt Hsize].
    split; [exact Hlt | ].
    destruct (decide (a' = a)) as [->|Hne']; [exact Hsz | ].
    by rewrite Hd.
Qed.

Lemma registry_inv_on k l : preserves registry_inv (on k l).
Proof.
  intros w [Hne Hinj]. unfold on.
  destruct (listeners (this w) !! k) as [a|] eqn:Hk.
  - (* the event name has its Set object *)
    rewrite Hk. simpl.
    set (w2 := if Nat.leb _ _ then _ else w).
    assert (Hsame : this w2 = this w /\ sets w2 = sets w /\ fresh w2 = fresh w)
      by (subst w2; destruct (Nat.leb _ _); by simpl).
    destruct Hsame as (Ht & Hs & Hf).
    split; simpl; rewrite ?Ht; [ | exact Hinj].
    intros k' a' Hk'. destruct (Hne k' a' Hk') as [Hlt Hsize].
    rewrite Hf. split; [exact Hlt | ].
    destruct (decide (a' = a)) as [->|Hne'].
    + rewrite deref_insert_eq. apply size_add.
    + rewrite deref_insert_ne by congruence.
      unfold deref in *. by rewrite Hs.
  - (* a new Set object is allocated at [fresh w] *)
    simpl. rewrite lookup_insert_eq. simpl.
    set (w1 := set_fresh _ _).
    set (w2 := if Nat.leb _ _ then _ else w1).
    assert (Hsame : this w2 = this w1 /\ sets w2 = sets w1 /\ fresh w2 = fresh w1)
      by (subst w2; destruct (Nat.leb _ _); by simpl).
    destruct Hsame as (Ht & Hs & Hf).
    split; simpl; rewrite ?Ht; simpl.
    + intros k' a' Hk'. rewrite Hf. simpl.
      destruct (decide (k' = k)) as [->|Hkk'].
      * rewrite lookup_insert_eq in Hk'. injection Hk' as <-.
        split; [lia | ]. rewrite deref_insert_eq. apply size_add.
      * rewrite lookup_insert_ne in Hk' by congruence.
        destruct (Hne k' a' Hk') as [Hlt Hsize]. split; [lia | ].
        rewrite deref_insert_ne by lia.
        unfold deref in *. rewrite Hs. simpl.
        rewrite lookup_insert_ne by lia. exact Hsize.
    + intros k1 k2 b H1 H2.
      destruct (decide (k1 = k)) as [->|Hk1], (decide (k2 = k)) as [->|Hk2];
        [ reflexivity | | | ].
      * rewrite lookup_insert_eq in H1. injection H1 as <-.
        rewrite lookup_insert_ne in H2 by congruence.
        destruct (Hne k2 _ H2). lia.
      * rewrite lookup_insert_eq in H2. injection H2 as <-.
        rewrite lookup_insert_ne in H1 by congruence.
        destruct (Hne k1 _ H1). lia.
      * rewrite lookup_insert_ne in H1 by congruence.
        rewrite lookup_insert_ne in H2 by congruence.
        by apply (Hinj k1 k2 b).
Qed.

Lemma registry_inv_set_fresh w n :
  fresh w <= n -> registry_inv w -> registry_inv (set_fresh n w).
Proof.
  intros Hn [Hne Hinj]. split; [ | exact Hinj].
  intros k a Hk. destruct (Hne k a Hk) as [Hlt Hsize].
  split; [simpl; lia | exact Hsize].
Qed.

Lemma registry_inv_once k l : preserves registry_inv (once k l).
Proof.
  intros w Hw. unfold once.
  apply registry_inv_on, registry_inv_set_fresh; [lia | exact Hw].
Qed.

Lemma registry_inv_clear : preserves registry_inv clear.
Proof.
  intros w _. split; simpl.
  - intros k a Hk. by rewrite lookup_empty in Hk.
  - intros k1 k2 a Hk. by rewrite lookup_empty in Hk.
Qed.

Lemma registry_inv_stable : stable registry_inv.
Proof.
  constructor.
  - apply registry_inv_print.
  - intros c w Hw. exact Hw.
  - apply registry_inv_on.
  - apply registry_inv_once.
  - apply registry_inv_off.
  - apply registry_inv_clear.
  - intros m w Hw. exact Hw.
  - intros m w Hw. exact Hw.
Qed.

Lemma registry_inv_boot b : listeners b = ∅ -> registry_inv (boot b).
Proof.
  intros Hb. split; simpl; rewrite Hb.
  - intros k a Hk. by rewrite lookup_empty in Hk.
  - intros k1 k2 a Hk. by rewrite lookup_empty in Hk.
Qed.

Lemma constructor_listeners options st : listeners (fst (constructor options st)) = ∅.
Proof.
  unfold constructor. destruct (Options.middlewares options); reflexivity.
Qed.

Lemma perform_preserves env c : preserves registry_inv (perform env c).
Proof.
  destruct c; simpl.
  - apply preserves_bind; [apply registry_inv_on | intros; apply preserves_ret].
  - apply preserves_bind; [apply registry_inv_once | intros; apply preserves_ret].
  - apply registry_inv_off.
  - apply registry_inv_clear.
  - apply emit_preserves, registry_inv_stable.
  - intros w Hw. exact Hw.
Qed.

Lemma perform_all_preserves env cs w :
  registry_inv w -> registry_inv (perform_all env cs w).
Proof.
  revert w. induction cs as [|c cs IH]; intros w Hw; simpl; [exact Hw | ].
  apply IH, perform_preserves, Hw.
Qed.

Lemma off_deletes_entry k l w a :
  listeners (this w) !! k = Some a ->
  JsSet.size (JsSet.delete (deref w a) l) = 0 ->
  listeners (this (snd (off k l w))) !! k = None.
Proof.
  intros Hk Hsz. unfold off. rewrite Hk.
  rewrite deref_insert_eq, Hsz. simpl. apply lookup_delete_eq.
Qed.

(** ** The error policy is fixed at construction *)

Ltac stable_field :=
  constructor; unfold preserves, has_policy;
  [ intros o w Hw; exact Hw
  | intros c w Hw; exact Hw
  | intros k l w Hw; unfold on;
    destruct (listeners (this w) !! k) eqn:Hk; simpl;
    rewrite ?Hk, ?lookup_insert_eq; simpl;
    repeat match goal with |- context [Nat.leb ?a ?b] => destruct (Nat.leb a b) end;
    simpl; exact Hw
  | intros k l w Hw; unfold once, on; simpl;
    destruct (listeners (this w) !! k) eqn:Hk; simpl;
    rewrite ?Hk, ?lookup_insert_eq; simpl;
    repeat match goal with |- context [Nat.leb ?a ?b] => destruct (Nat.leb a b) end;
    simpl; exact Hw
  | intros k l w Hw; unfold off;
    destruct (listeners (this w) !! k); simpl; [ | exact Hw];
    match goal with |- context [Nat.eqb ?a ?b] => destruct (Nat.eqb a b) end;
    simpl; exact Hw
  | intros w Hw; exact Hw
  | intros m w Hw; exact Hw
  | intros m w Hw; exact Hw ].

Lemma has_policy_stable p : stable (has_policy p).
Proof. stable_field. Qed.

(** ** Policies that resolve to "continue" *)

Lemma quiet_ret Q {A} (a : A) : quiet Q (ret a).
Proof. intros w _ e. discriminate. Qed.

Lemma quiet_bind Q {A B} (m : M A) (f : A -> M B) :
  preserves Q m -> quiet Q m -> (forall a, quiet Q (f a)) -> quiet Q (bind m f).
Proof.
  intros Hp Hm Hf w Hw e. unfold bind.
  specialize (Hp w Hw). specialize (Hm w Hw).
  destruct (m w) as [[a|e'|] w']; simpl in *.
  - apply Hf, Hp.
  - destruct (Hm e' eq_refl).
  - discriminate.
Qed.

Lemma quiet_try_catch Q {A} (m : M A) (h : Error -> M A) :
  preserves Q m -> (forall e, quiet Q (h e)) -> quiet Q (try_catch m h).
Proof.
  intros Hp Hh w Hw e. unfold try_catch.
  specialize (Hp w Hw).
  destruct (m w) as [[a|e'|] w']; simpl in *; try discriminate.
  apply Hh, Hp.
Qed.

Lemma quiet_total Q {A} (m : M A) :
  (forall w, exists a w', m w = (Normal a, w')) -> quiet Q m.
Proof. intros Hm w _ e. destruct (Hm w) as (a & w' & ->). discriminate. Qed.

Lemma print_total o w : exists a w', print o w = (Normal a, w').
Proof. unfold print. eauto. Qed.

Lemma on_total k l w : exists a w', on k l w = (Normal a, w').
Proof.
  unfold on. destruct (listeners (this w) !! k); simpl;
    rewrite ?lookup_insert_eq;
    repeat match goal with |- context [match ?x with _ => _ end] => destruct x end;
    eauto.
Qed.

Lemma once_total k l w : exists a w', once k l w = (Normal a, w').
Proof. unfold once. apply on_total. Qed.

Lemma off_total k l w : exists a w', off k l w = (Normal a, w').
Proof.
  unfold off.
  repeat match goal with |- context [match ?x with _ => _ end] => destruct x end;
    eauto.
Qed.

Section Continue.
Variable env : Env.
Variable p : ErrorPolicy.
Variable emit_rec : string -> Data -> M unit.
Hypothesis Hrec : forall k d, preserves (has_policy p) (emit_rec k d).
Hypothesis Hquiet : forall k d, quiet (has_policy p) (emit_rec k d).


Lemma run_quiet (body : prog Empty_set) :
  nothrow body -> quiet (has_policy p) (run emit_rec no_next body).
Proof using Hrec Hquiet.
  induction body; simpl; intros Hbody;
    try (apply quiet_bind;
         [ solve [apply (has_policy_stable p) | apply Hrec]
         | solve [ apply quiet_total; intros;
                   first [apply print_total | apply on_total | apply off_total
                         | unfold clear, use, remove; eauto ]
                 | apply Hquiet ]
         | intros; solve [auto] ]).
  - apply quiet_ret.
  - destruct Hbody.
  - intros w Hw. apply H; auto.
  - destruct Hbody as [Hh Hk].
    assert (Hb : preserves (has_policy p) (run emit_rec no_next body1))
      by (apply run_preserves; [exact (has_policy_stable p) | exact Hrec | intros []]).
    apply quiet_bind; [ | | auto].
    + apply preserves_try_catch; [exact Hb | intros].
      apply run_preserves; [exact (has_policy_stable p) | exact Hrec | intros []].
    + apply quiet_try_catch; [exact Hb | auto].
  - destruct Hbody.
Qed.

Lemma handleError_quiet error event type :
  resolves_to_continue env (policy_map p type) ->
  quiet (has_policy p) (handleError env emit_rec error event type).
Proof using Hrec Hquiet.
  intros Hc w Hw e. unfold handleError.
  pose proof Hw as Hw'. unfold has_policy in Hw'. rewrite Hw'.
  destruct (policy_map p type) as [[s|h]|]; simpl in Hc; [ | | destruct Hc].
  - subst s. simpl. discriminate.
  - simpl. revert e.
    assert (Hq : quiet (has_policy p) (print (Handled h error event) >>
       run emit_rec no_next (handlerBody env h error event) >> ret true)).
    { apply quiet_bind; [apply (has_policy_stable p) | apply quiet_total, print_total | intros].
      apply quiet_bind; [ | apply run_quiet, Hc | intros; apply quiet_ret].
      apply run_preserves; [exact (has_policy_stable p) | exact Hrec | intros []]. }
    intros e. apply Hq, Hw.
Qed.

Lemma emit_body_quiet fuel k d :
  resolves_to_continue env (onEmitError p) ->
  quiet (has_policy p) (emit_body env emit_rec fuel k d).
Proof using Hrec Hquiet.
  intros Hc. apply quiet_try_catch.
  - apply pipeline_preserves; [exact (has_policy_stable p) | exact Hrec].
  - intros e. apply quiet_bind; [ | | intros; apply quiet_ret].
    + apply handleError_preserves; [exact (has_policy_stable p) | exact Hrec].
    + apply (handleError_quiet e (mkEvent k d) EMIT Hc).
Qed.
End Continue.

Lemma emit_quiet env p fuel k d :
  resolves_to_continue env (onEmitError p) ->
  quiet (has_policy p) (emit env fuel k d).
Proof.
  intros Hc. revert k d. induction fuel as [|fuel IH]; intros k d; simpl.
  - intros w _ e. discriminate.
  - apply emit_body_quiet; [ | exact IH | exact Hc].
    intros k' d'. apply emit_preserves, has_policy_stable.
Qed.

(** ** Policies that stop *)


Lemma handleError_continue env emit_rec error event type w :
  policy_map (errorPolicy (this w)) type = Some (PString POLICY.CONTINUE) ->
  handleError env emit_rec error event type w =
  (Normal true, snd (print (ConsoleError (ERROR_TYPE type) (name event) error) w)).
Proof. intros Hp. unfold handleError. rewrite Hp. reflexivity. Qed.

Lemma handleError_omitted env emit_rec error event type w :
  policy_map (errorPolicy (this w)) type = None ->
  handleError env emit_rec error event type w =
  (Thrown (mkError (String.append "Invalid error type: " (ERROR_TYPE type))), w).
Proof. intros Hp. unfold handleError. rewrite Hp. reflexivity. Qed.

(** ** The output only grows *)

Lemma output_extends_stable pre : stable (output_extends pre).
Proof.
  constructor; unfold preserves, output_extends.
  - intros o w Hw. simpl. by apply prefix_app_r.
  - intros c w Hw. exact Hw.
  - intros k l w Hw. unfold on.
    destruct (listeners (this w) !! k) eqn:Hk; simpl;
      rewrite ?Hk, ?lookup_insert_eq; simpl;
      repeat match goal with |- context [Nat.leb ?a ?b] => destruct (Nat.leb a b) end;
      simpl; try exact Hw; by apply prefix_app_r.
  - intros k l w Hw. unfold once, on. simpl.
    destruct (listeners (this w) !! k) eqn:Hk; simpl;
      rewrite ?Hk, ?lookup_insert_eq; simpl;
      repeat match goal with |- context [Nat.leb ?a ?b] => destruct (Nat.leb a b) end;
      simpl; try exact Hw; by apply prefix_app_r.
  - intros k l w Hw. unfold off.
    destruct (listeners (this w) !! k); simpl; [ | exact Hw].
    match goal with |- context [Nat.eqb ?a ?b] => destruct (Nat.eqb a b) end;
      simpl; exact Hw.
  - intros w Hw. exact Hw.
  - intros m w Hw. exact Hw.
  - intros m w Hw. exact Hw.
Qed.


(** ** The loop of the terminal stage *)




Lemma pipeline_no_middleware env emit_rec fuel k d w :
  JsSet.values (middlewares (this w)) = [] ->
  pipeline env emit_rec fuel k d w = terminal env emit_rec fuel k (mkEvent k d) w.
Proof. intros Hm. unfold pipeline. rewrite Hm. reflexivity. Qed.

Lemma deref_print o w a : deref (snd (print o w)) a = deref w a.
Proof. reflexivity. Qed.

(** ** Chains of relaying middlewares *)







(** Under [onListenerError: "continue"] no error leaves the loop of the
    terminal stage. *)
Lemma visit_continue_quiet env emit_rec event l w e :
  onListenerError (errorPolicy (this w)) = Some (PString POLICY.CONTINUE) ->
  (forall k d, preserves (has_policy (errorPolicy (this w))) (emit_rec k d)) ->
  fst (visit env emit_rec event l w) <> Thrown e.
Proof.
  intros HL Hrec. unfold visit, try_catch.
  pose proof (call_listener_preserves _ (has_policy_stable _) env emit_rec Hrec
                l (data event) w eq_refl) as Hp.
  destruct (call_listener env emit_rec l (data event) w) as [[[]|e'|] w1];
    simpl in *; try discriminate.
  unfold bind. rewrite handleError_continue; [discriminate | ].
  simpl. unfold has_policy in Hp. by rewrite Hp.
Qed.

Lemma for_of_listener env emit_rec fuel a event i w l :
  deref w a !! i = Some (Some l) ->
  for_of env emit_rec (S fuel) a event i w =
  (visit env emit_rec event l >> for_of env emit_rec fuel a event (S i)) w.
Proof. intros Hi. simpl. by rewrite Hi. Qed.

Lemma for_of_hole env emit_rec fuel a event i w :
  deref w a !! i = Some None ->
  for_of env emit_rec (S fuel) a event i w =
  for_of env emit_rec fuel a event (S i) w.
Proof. intros Hi. simpl. by rewrite Hi. Qed.

Lemma for_of_end env emit_rec fuel a event i w :
  deref w a !! i = None ->
  for_of env emit_rec (S fuel) a event i w = (Normal tt, w).
Proof. intros Hi. simpl. by rewrite Hi. Qed.

Lemma visit_thrown env emit_rec event l w error w1 :
  call_listener env emit_rec l (data event) w = (Thrown error, w1) ->
  visit env emit_rec event l w =
  (handleError env emit_rec error (mkEvent (name event) (data event)) LISTENER >>
   ret tt) w1.
Proof. intros Hc. unfold visit, try_catch. by rewrite Hc. Qed.

Lemma visit_normal env emit_rec event l w w1 :
  call_listener env emit_rec l (data event) w = (Normal tt, w1) ->
  visit env emit_rec event l w = (Normal tt, w1).
Proof. intros Hc. unfold visit, try_catch. by rewrite Hc. Qed.

Lemma emit_unfold env fuel k d w :
  emit env (S fuel) k d w =
  try_catch (pipeline env (emit env fuel) fuel k d)
    (fun error => handleError env (emit env fuel) error (mkEvent k d) EMIT >> ret tt) w.
Proof. reflexivity. Qed.

Lemma emit_rec_policy env fuel p k d : preserves (has_policy p) (emit env fuel k d).
Proof. apply emit_preserves, has_policy_stable. Qed.

(** ** Escalation under "stop" *)





(** ** Isolation under "continue" *)








(** ** What leaves [emit] *)








(** ** Listeners that change the listener set while it is iterated *)

Lemma deref_off k l w a :
  listeners (this w) !! k = Some a ->
  deref (snd (off k l w)) a = JsSet.delete (deref w a) l.
Proof.
  intros Hk. unfold off. rewrite Hk.
  destruct (Nat.eqb _ 0); simpl; apply deref_insert_eq.
Qed.

Lemma deref_on_present k l w a :
  listeners (this w) !! k = Some a ->
  deref (snd (on k l w)) a = JsSet.add (deref w a) l.
Proof.
  intros Hk. unfold on. rewrite !Hk. simpl.
  destruct (Nat.leb _ _); unfold deref; simpl; by rewrite lookup_insert_eq.
Qed.

Lemma deref_on_absent k l w a :
  listeners (this w) !! k = None -> a < fresh w ->
  deref (snd (on k l w)) a = deref w a.
Proof.
  intros Hk Ha. unfold on. rewrite !Hk. simpl. rewrite lookup_insert_eq.
  destruct (Nat.leb _ _); unfold deref; simpl;
    by rewrite !lookup_insert_ne by lia.
Qed.

(** C5, as the code has it.  The terminal stage iterates the Set object
    itself, not a copy.  While the event name still maps to that object, a
    listener that [off] removes ahead of the iterator is passed over without
    being invoked, and a listener that [on] adds is invoked by the same
    emission once the iterator is through the older entries.  Only after
    the entry of the event name has gone (its set became empty, or [clear])
    does [on] put the listener into a new Set object and leave the one
    being iterated as it was. *)
Theorem terminal_stage_iterates_the_live_set env emit_rec w k a l :
  a < fresh w ->
  (listeners (this w) !! k = Some a ->
     (forall i fuel event,
        deref w a !! i = Some (Some l) ->
        let w' := snd (off k l w) in
        for_of env emit_rec (S fuel) a event i w' =
        for_of env emit_rec fuel a event (S i) w') /\
     (forall fuel event,
        JsSet.has (deref w a) l = false ->
        let w' := snd (on k l w) in
        let n := length (deref w a) in
        for_of env emit_rec (S fuel) a event n w' =
        (visit env emit_rec event l >> for_of env emit_rec fuel a event (S n)) w')) /\
  (listeners (this w) !! k = None ->
     deref (snd (on k l w)) a = deref w a).
Proof.
  intros Ha. split.
  - intros Hk. split.
    + intros i fuel event Hi w'. apply for_of_hole.
      subst w'. rewrite (deref_off k l w a Hk).
      by apply lookup_delete_hit.
    + intros fuel event Hhas w' n. apply for_of_listener.
      subst w' n. rewrite (deref_on_present k l w a Hk).
      by apply lookup_add_new.
  - intros Hk. by apply deref_on_absent.
Qed.

Lemma terminal_stage_iterates_the_live_set_witness :
  let w := Mutation.remover_first in
  let rec := emit Mutation.env 3 in
  let event := mkEvent "k" 7%Z in
  0 < fresh w /\
  for_of Mutation.env rec 3 0 event 1 (snd (off "k" (LUser 1) w)) =
    for_of Mutation.env rec 2 0 event 2 (snd (off "k" (LUser 1) w)) /\
  for_of Mutation.env rec 3 0 event 2 (snd (on "k" (LUser 2) w)) =
    (visit Mutation.env rec event (LUser 2) >> for_of Mutation.env rec 2 0 event 3)
      (snd (on "k" (LUser 2) w)) /\
  deref (snd (on "j" (LUser 2) w)) 0 = deref w 0.
Proof.
  intros w rec event.
  assert (Hfresh : 0 < fresh w) by (vm_compute; lia).
  split; [exact Hfresh | ].
  pose proof (terminal_stage_iterates_the_live_set Mutation.env rec w "k" 0 (LUser 1)
                Hfresh) as [Hk1 _].
  pose proof (terminal_stage_iterates_the_live_set Mutation.env rec w "k" 0 (LUser 2)
                Hfresh) as [Hk2 _].
  pose proof (terminal_stage_iterates_the_live_set Mutation.env rec w "j" 0 (LUser 2)
                Hfresh) as [_ Hj].
  split; [ | split].
  - apply Hk1; vm_compute; reflexivity.
  - apply (proj2 (Hk2 ltac:(vm_compute; reflexivity)) 2 event).
    vm_compute; reflexivity.
  - apply Hj. vm_compute; reflexivity.
Defined.

(** C5 as stated fails.  Listener 0 removes listener 1, a member of the set
    when the emission starts: the emission invokes listener 0 only.
    Listener 3 adds listener 2, no member when the emission starts: the
    emission invokes both. *)
Lemma listener_set_is_not_a_snapshot :
  (Mutation.members Mutation.remover_first "k" = [LUser 0; LUser 1] /\
   invoked (output (snd (emit Mutation.env 4 "k" 7%Z Mutation.remover_first))) =
     [(0, 7%Z)]) /\
  (Mutation.members Mutation.adder_alone "k" = [LUser 3] /\
   invoked (output (snd (emit Mutation.env 4 "k" 7%Z Mutation.adder_alone))) =
     [(3, 7%Z); (2, 7%Z)]).
Proof. vm_compute. repeat split. Qed.

(** ** [once] *)

(** C6 fails on the code when the listener throws: [wrappedListener] calls
    [off] after the listener, so the throw skips it and the wrapper stays
    registered.  Under the default policy both emissions complete and the
    listener is called twice; a listener that returns is called once.  For
    the same reason a listener that emits the event again from its body is
    entered a second time by that inner emission. *)
Lemma once_listener_that_throws_is_called_again :
  invoked (output OneShot.throwing) = [(0, 1%Z); (0, 2%Z)] /\
  Mutation.members OneShot.throwing "k" = [LOnce 0 "k" 0] /\
  invoked (output OneShot.returning) = [(1, 1%Z)] /\
  Mutation.members OneShot.returning "k" = [] /\
  invoked (output OneShot.reentrant) = [(0, 1%Z); (0, 9%Z)].
Proof. vm_compute. repeat split. Qed.

(** ** Errors of a middleware *)

(** C4 fails on the code for an error thrown when the layer is invoked: the
    guard in [reduceRight] is around [middleware(next)] only.  With a custom
    handler in the middleware slot, an error thrown by the layer of
    middleware 0 never sees that handler: it goes to the emit slot, and the
    listener is not reached.  An error thrown while the layer is constructed
    (middleware 1) is handled by the middleware slot and the layer is
    skipped. *)
Lemma layer_error_goes_to_emit_slot :
  output (snd (emit Faulty.env 4 "k" 7%Z (Faulty.with_middleware 0))) =
    [ConsoleError "emit" "k" Scenario.boom] /\
  output (snd (emit Faulty.env 4 "k" 7%Z (Faulty.with_middleware 1))) =
    [Handled 0 Scenario.boom (mkEvent "k" 7%Z); UserLog "middleware handler ran";
     Invoked 0 7%Z; UserLog "listener ran"].
Proof. vm_compute. repeat split. Qed.

(** The part of C4 that holds: an error thrown by [middleware(next)] is
    routed to the middleware slot, and if that answers [true] the layer is
    [next] itself. *)
Lemma construction_error_skips_layer env emit_rec m rest k d t next w0 w error w' w'' :
  reduceRight env emit_rec rest k d t w0 = (Normal next, w) ->
  apply_middleware env emit_rec m next w = (Thrown error, w') ->
  handleError env emit_rec error (mkEvent k d) MIDDLEWARE w' = (Normal true, w'') ->
  reduceRight env emit_rec (m :: rest) k d t w0 = (Normal next, w'').
Proof.
  intros Hrest Happly Hhandle. simpl. unfold bind at 1. rewrite Hrest.
  unfold try_catch. rewrite Happly. unfold bind. by rewrite Hhandle.
Qed.

(** ** The order of the middlewares *)

Lemma values_add {A : Type} `{EqDecision A} (s : list (option A)) (x : A) :
  x ∉ JsSet.values s -> JsSet.values (JsSet.add s x) = JsSet.values s ++ [x].
Proof.
  intros Hx. unfold JsSet.add.
  destruct (JsSet.has s x) eqn:Hhas.
  - apply has_true, elem_of_values in Hhas. contradiction.
  - apply values_snoc.
Qed.

Lemma use_twice_values w A B :
  JsSet.values (middlewares (this w)) = [] -> A <> B ->
  JsSet.values (middlewares (this (snd (use B (snd (use A w)))))) = [A; B].
Proof.
  intros Hw HAB. simpl.
  assert (HA : JsSet.values (JsSet.add (middlewares (this w)) A) = [A]).
  { rewrite values_add; rewrite Hw; [reflexivity | apply not_elem_of_nil]. }
  rewrite values_add; rewrite HA; [reflexivity | ].
  intros Hin. apply list_elem_of_singleton in Hin. congruence.
Qed.

(** C7. Middlewares [A] then [B] registered through [use], each with its
    logic before and after [next], and one listener [L]: a single [emit]
    runs [A]'s logic before [next], [B]'s logic before [next], [L], [B]'s
    logic after [next], [A]'s logic after [next].  The composed function is
    [A]'s layer around [B]'s layer around the terminal stage. *)
Theorem first_registered_middleware_is_outermost
    env fuel k d w0 a A B L preA postA preB postB mark :
  JsSet.values (middlewares (this w0)) = [] ->
  A <> B ->
  middlewareBody env A =
    mkMiddleware PRet (fun event => PLog preA (PNext tt event (PLog postA PRet))) ->
  middlewareBody env B =
    mkMiddleware PRet (fun event => PLog preB (PNext tt event (PLog postB PRet))) ->
  listenerBody env L d = PLog mark PRet ->
  listeners (this w0) !! k = Some a ->
  deref w0 a = [Some (LUser L)] ->
  1 < fuel ->
  let w := snd (use (MUser B) (snd (use (MUser A) w0))) in
  let layer m next event :=
    run (emit env fuel) (fun _ : unit => next) (layer (middlewareBody env m) event) in
  let t := terminal env (emit env fuel) fuel k in
  reduceRight env (emit env fuel) (JsSet.values (middlewares (this w))) k d t w =
    (Normal (layer A (layer B t)), w) /\
  exists w',
    emit env (S fuel) k d w = (Normal tt, w') /\
    output w' = output w0 ++ [UserLog preA; UserLog preB; Invoked L d; UserLog mark;
                              UserLog postB; UserLog postA].
Proof.
  intros Hw0 HAB HA HB HL Hk Hd Hfuel w layer t.
  assert (Hvals : JsSet.values (middlewares (this w)) = [MUser A; MUser B]).
  { apply use_twice_values; [exact Hw0 | congruence]. }
  assert (Hred : reduceRight env (emit env fuel) [MUser A; MUser B] k d t w =
                 (Normal (layer A (layer B t)), w)).
  { assert (HcA : construct (middlewareBody env A) = PRet) by (by rewrite HA).
    assert (HcB : construct (middlewareBody env B) = PRet) by (by rewrite HB).
    simpl. unfold bind, try_catch, ret. rewrite HcA, HcB. reflexivity. }
  split; [by rewrite Hvals | ].
  rewrite emit_unfold. unfold try_catch, pipeline. cbv beta.
  rewrite Hvals. fold t. unfold bind at 1. rewrite Hred.
  subst layer t. simpl. rewrite HA, HB. simpl.
  unfold bind, print, ret, terminal. simpl. rewrite Hk.
  destruct fuel as [|[|n]]; try lia.
  simpl. unfold deref in *. simpl. rewrite Hd. simpl.
  unfold bind, visit, try_catch, call_listener, call_user, bind, print. simpl.
  rewrite HL. simpl. unfold bind, print, ret. simpl.
  rewrite Hd. simpl.
  eexists. split; [reflexivity | ]. simpl.
  by rewrite <- !app_assoc.
Qed.

Lemma first_registered_middleware_is_outermost_witness :
  let w := snd (use (MUser 1) (snd (use (MUser 0) Order.one_listener))) in
  exists w',
    emit Order.env 3 "k" 7%Z w = (Normal tt, w') /\
    output w' = [UserLog "A before"; UserLog "B before"; Invoked 0 7%Z; UserLog "L";
                 UserLog "B after"; UserLog "A after"].
Proof.
  intros w.
  apply (first_registered_middleware_is_outermost Order.env 2 "k" 7%Z
           Order.one_listener 0 0 1 0 "A before" "A after" "B before" "B after" "L").
  - reflexivity.
  - discriminate.
  - reflexivity.
  - reflexivity.
  - reflexivity.
  - vm_compute; reflexivity.
  - vm_compute; reflexivity.
  - lia.
Defined.

(** ** Omitted slots of the error policy *)

Lemma constructor_errorPolicy options st p :
  Options.errorPolicy options = Some p ->
  errorPolicy (fst (constructor options st)) = p.
Proof.
  intros Hp. unfold constructor.
  destruct (Options.middlewares options); simpl; by rewrite Hp.
Qed.

Lemma emit_omitted env fuel k d w error w' :
  onEmitError (errorPolicy (this w)) = None ->
  pipeline env (emit env fuel) fuel k d w = (Thrown error, w') ->
  emit env (S fuel) k d w = (Thrown (Omitted.invalid EMIT), w').
Proof.
  intros HE Hpipe.
  assert (Hp : has_policy (errorPolicy (this w)) w').
  { pose proof (pipeline_preserves _ (has_policy_stable _) env (emit env fuel)
                  (fun k' d' => emit_rec_policy env fuel _ k' d') fuel k d w eq_refl)
      as H.
    by rewrite Hpipe in H. }
  rewrite emit_unfold. unfold try_catch. rewrite Hpipe. unfold bind.
  rewrite handleError_omitted; [reflexivity | ].
  simpl. unfold has_policy in Hp. by rewrite Hp.
Qed.

(** C9, as the code has it.  The constructor takes the [errorPolicy] object
    as it is given.  An error routed to a slot that it leaves out makes
    [handleError] throw a new Error "Invalid error type: <tag>" in its
    place; for the listener slot this ends the loop, the listeners behind
    are skipped.  If [onEmitError] is left out too, the guard of [emit]
    replaces whatever reaches it by a new Error "Invalid error type: emit",
    and this one goes to the caller. *)
Theorem omitted_slot_throws_invalid_error_type
    env options st p fuel k d w a i l error w1 :
  Options.errorPolicy options = Some p ->
  has_policy p w ->
  errorPolicy (fst (constructor options st)) = p /\
  (forall type emit_rec err event,
     policy_map p type = None ->
     handleError env emit_rec err event type w = (Thrown (Omitted.invalid type), w)) /\
  (onListenerError p = None ->
   deref w a !! i = Some (Some l) ->
   call_listener env (emit env fuel) l d w = (Thrown error, w1) ->
   for_of env (emit env fuel) (S fuel) a (mkEvent k d) i w =
     (Thrown (Omitted.invalid LISTENER), w1)) /\
  (onEmitError p = None ->
   forall err w',
     pipeline env (emit env fuel) fuel k d w = (Thrown err, w') ->
     emit env (S fuel) k d w = (Thrown (Omitted.invalid EMIT), w')).
Proof.
  intros Hopt Hp. unfold has_policy in Hp. repeat split.
  - by apply constructor_errorPolicy.
  - intros type emit_rec err event Hnone.
    apply handleError_omitted. by rewrite Hp.
  - intros HL Hi Hcall.
    assert (Hp1 : has_policy p w1).
    { pose proof (call_listener_preserves _ (has_policy_stable p) env (emit env fuel)
                    (fun k' d' => emit_rec_policy env fuel _ k' d') l d w Hp) as H.
      by rewrite Hcall in H. }
    rewrite (for_of_listener _ _ _ _ _ _ _ _ Hi). unfold bind at 1.
    rewrite (visit_thrown env (emit env fuel) (mkEvent k d) l w error w1 Hcall).
    unfold bind. rewrite handleError_omitted; [reflexivity | ].
    simpl. unfold has_policy in Hp1. by rewrite Hp1.
  - intros HE err w' Hpipe. apply (emit_omitted env fuel k d w err w'); [ | exact Hpipe].
    by rewrite Hp.
Qed.

Lemma omitted_slot_throws_invalid_error_type_witness :
  let env := Scenario.first_throws in
  let w := Omitted.world in
  let w1 := snd (call_listener env (emit env 3) (LUser 0) 7%Z w) in
  for_of env (emit env 3) 4 0 (mkEvent "k" 7%Z) 0 w =
    (Thrown (Omitted.invalid LISTENER), w1) /\
  emit env 4 "k" 7%Z w = (Thrown (Omitted.invalid EMIT), w1).
Proof.
  intros env w w1.
  pose proof (omitted_slot_throws_invalid_error_type env
                (Options.mk false None (Some Omitted.policy) None None)
                (mkStore ∅ 0) Omitted.policy 3 "k" 7%Z w 0 0 (LUser 0)
                Scenario.boom w1 eq_refl eq_refl) as (_ & _ & Hloop & Hemit).
  split.
  - apply Hloop; vm_compute; reflexivity.
  - apply (Hemit eq_refl (Omitted.invalid LISTENER)). vm_compute; reflexivity.
Defined.

(** C9 as stated fails in its last part: with the listener and the emit
    slots left out, the Error "Invalid error type: listener" reaches the
    guard of [emit], and what leaves [emit] is another Error, "Invalid error
    type: emit". *)
Lemma invalid_listener_error_does_not_leave_emit :
  let env := Scenario.first_throws in
  let w := Omitted.world in
  fst (pipeline env (emit env 3) 3 "k" 7%Z w) = Thrown (mkError "Invalid error type: listener") /\
  fst (emit env 4 "k" 7%Z w) = Thrown (mkError "Invalid error type: emit") /\
  fst (emit env 4 "k" 7%Z w) <> Thrown (mkError "Invalid error type: listener") /\
  invoked (output (snd (emit env 4 "k" 7%Z w))) = [(0, 7%Z)].
Proof. vm_compute. repeat split. discriminate. Qed.

(** ** The caller's middleware array *)

(** C10. [createEventBroker] with [logger] set and an array of the caller
    as [options.middlewares] pushes the logger middleware onto that very
    array: afterwards the caller's array holds it as its last element. *)
Theorem constructor_pushes_logger_onto_callers_array options st a ms :
  Options.logger options = true ->
  Options.middlewares options = Some a ->
  arrays st !! a = Some ms ->
  let logger := MLogger (next_ref st) (mkLoggerOptions true None) in
  let '(broker, st') := createEventBroker (Some options) st in
  arrays st' !! a = Some (ms ++ [logger]) /\
  middlewares broker = JsSet.of_list (ms ++ [logger]) /\
  forall b, b <> a -> arrays st' !! b = arrays st !! b.
Proof.
  intros Hlog Hmw Ha logger.
  unfold createEventBroker, constructor. simpl.
  rewrite Hmw, Hlog. simpl. rewrite Ha. simpl.
  rewrite lookup_insert_eq. simpl.
  repeat split. intros b Hb. by rewrite lookup_insert_ne.
Qed.

Lemma constructor_pushes_logger_onto_callers_array_witness :
  arrays (snd (createEventBroker (Some Caller.options) Caller.store)) !! 0 =
    Some [MUser 0; Caller.logger].
Proof.
  pose proof (constructor_pushes_logger_onto_callers_array Caller.options
                Caller.store 0 [MUser 0] eq_refl eq_refl eq_refl) as H.
  destruct (createEventBroker (Some Caller.options) Caller.store) as [broker st'].
  exact (proj1 H).
Defined.

(** ** The registry holds no empty set *)

(** C8. Whatever public operations the owner has called on a new broker
    ([on], [once], [off], [clear], [emit], [use], with any user code running
    inside the emissions), every event name of the registry maps to a Set
    object that is not empty; and an [off] that empties the set of an event
    name deletes the entry of that name. *)
Theorem registry_holds_no_empty_set env options st cs k a :
  let w := perform_all env cs (boot (fst (createEventBroker options st))) in
  listeners (this w) !! k = Some a ->
  (exists s, sets w !! a = Some s /\ JsSet.size s <> 0) /\
  (forall l, JsSet.size (JsSet.delete (deref w a) l) = 0 ->
             listeners (this (snd (off k l w))) !! k = None) /\
  (forall c, registry_inv (snd (perform env c w))).
Proof.
  intros w Hk.
  assert (Hw : registry_inv w).
  { apply perform_all_preserves, registry_inv_boot, constructor_listeners. }
  split; [ | split].
  - destruct Hw as [Hne _]. destruct (Hne k a Hk) as [_ Hsize].
    unfold deref in Hsize.
    destruct (sets w !! a) as [s|]; [by exists s | ].
    by destruct Hsize.
  - intros l Hsz. by apply (off_deletes_entry k l w a).
  - intros c. by apply perform_preserves.
Qed.

Lemma registry_holds_no_empty_set_witness :
  let w := perform_all Mutation.env
             [CallOn "k" 0; CallOn "k" 1; CallOnce "j" 2; CallEmit 4 "k" 7%Z;
              CallEmit 4 "j" 7%Z]
             (boot (fst (createEventBroker None (mkStore ∅ 0)))) in
  listeners (this w) !! "k" = Some 0 /\
  listeners (this w) !! "j" = None /\
  exists s, sets w !! 0 = Some s /\ JsSet.size s <> 0.
Proof.
  intros w. split; [vm_compute; reflexivity | ].
  split; [vm_compute; reflexivity | ].
  apply (registry_holds_no_empty_set Mutation.env None (mkStore ∅ 0)
           [CallOn "k" 0; CallOn "k" 1; CallOnce "j" 2; CallEmit 4 "k" 7%Z;
            CallEmit 4 "j" 7%Z] "k" 0).
  vm_compute; reflexivity.
Defined.

(** * Further properties of the broker *)

(** ** Subscribing and unsubscribing *)

Lemma values_delete {A : Type} `{EqDecision A} (s : list (option A)) (x : A) :
  JsSet.values (JsSet.delete s x) = filter (fun y => y <> x) (JsSet.values s).
Proof.
  unfold JsSet.values, JsSet.delete.
  induction s as [|[y|] s IH]; [reflexivity | | exact IH].
  rewrite fmap_cons.
  destruct (decide (Some y = Some x)) as [Heq|Hne].
  - injection Heq as ->. cbn [omap id]. simpl.
    rewrite filter_cons_False by (intros H'; by apply H').
    exact IH.
  - cbn [omap id]. simpl. rewrite filter_cons_True by congruence.
    f_equal. exact IH.
Qed.

Lemma values_delete_absent {A : Type} `{EqDecision A} (s : list (option A)) (x : A) :
  x ∉ JsSet.values s -> JsSet.values (JsSet.delete s x) = JsSet.values s.
Proof.
  intros Hx. rewrite values_delete.
  induction (JsSet.values s) as [|y l IH]; [reflexivity | ].
  apply not_elem_of_cons in Hx as [Hxy Hx].
  rewrite filter_cons_True by congruence. by rewrite IH.
Qed.

Lemma delete_absent {A : Type} `{EqDecision A} (s : list (option A)) (x : A) :
  Some x ∉ s -> JsSet.delete s x = s.
Proof.
  intros Hx. unfold JsSet.delete.
  induction s as [|e s IH]; [reflexivity | ].
  apply not_elem_of_cons in Hx as [Hxe Hx].
  rewrite fmap_cons, (IH Hx).
  by rewrite decide_False by congruence.
Qed.

Lemma delete_delete {A : Type} `{EqDecision A} (s : list (option A)) (x : A) :
  JsSet.delete (JsSet.delete s x) x = JsSet.delete s x.
Proof.
  unfold JsSet.delete. induction s as [|e s IH]; [reflexivity | ].
  rewrite !fmap_cons, IH. f_equal.
  destruct (decide (e = Some x)) as [He|He].
  - by rewrite decide_False.
  - by rewrite decide_False.
Qed.

Lemma add_present {A : Type} `{EqDecision A} (s : list (option A)) (x : A) :
  x ∈ JsSet.values s -> JsSet.add s x = s.
Proof.
  intros Hx. unfold JsSet.add.
  apply elem_of_values, has_true in Hx. by rewrite Hx.
Qed.

Lemma world_eta w :
  {| this := this w; sets := sets w; fresh := fresh w;
     cells := cells w; output := output w |} = w.
Proof. by destruct w. Qed.

Lemma broker_eta b :
  {| listeners := listeners b; middlewares := middlewares b;
     errorPolicy := errorPolicy b; maxListeners := maxListeners b |} = b.
Proof. by destruct b. Qed.

(** What [on] and [off] do to the registry and to the Set objects. *)

Lemma on_result k l w : fst (on k l w) = Normal (mkUnsubscribe k l).
Proof.
  unfold on. destruct (listeners (this w) !! k) eqn:Hk; simpl.
  - by rewrite Hk.
  - by rewrite lookup_insert_eq.
Qed.

Lemma on_present k l w a :
  listeners (this w) !! k = Some a ->
  this (snd (on k l w)) = this w /\
  sets (snd (on k l w)) = <[a := JsSet.add (deref w a) l]> (sets w) /\
  fresh (snd (on k l w)) = fresh w.
Proof.
  intros Hk. unfold on. rewrite !Hk. simpl.
  by destruct (Nat.leb _ _).
Qed.

Lemma on_absent k l w :
  listeners (this w) !! k = None ->
  listeners (this (snd (on k l w))) = <[k := fresh w]> (listeners (this w)) /\
  sets (snd (on k l w)) = <[fresh w := [Some l]]> (sets w) /\
  fresh (snd (on k l w)) = S (fresh w).
Proof.
  intros Hk. unfold on. rewrite !Hk. simpl. rewrite lookup_insert_eq.
  destruct (Nat.leb _ _); simpl; unfold deref; simpl;
    rewrite lookup_insert_eq; simpl; by rewrite insert_insert_eq.
Qed.

Lemma off_present k l w a :
  listeners (this w) !! k = Some a ->
  sets (snd (off k l w)) = <[a := JsSet.delete (deref w a) l]> (sets w) /\
  listeners (this (snd (off k l w))) =
    (if Nat.eqb (JsSet.size (JsSet.delete (deref w a) l)) 0
     then delete k (listeners (this w)) else listeners (this w)).
Proof.
  intros Hk. unfold off. rewrite Hk. rewrite deref_insert_eq.
  by destruct (Nat.eqb _ 0).
Qed.

Lemma off_absent k l w :
  listeners (this w) !! k = None -> off k l w = (Normal tt, w).
Proof. intros Hk. unfold off. by rewrite Hk. Qed.

Lemma values_delete_add {A : Type} `{EqDecision A} (s : list (option A)) (x : A) :
  x ∉ JsSet.values s ->
  JsSet.values (JsSet.delete (JsSet.add s x) x) = JsSet.values s.
Proof.
  intros Hx. unfold JsSet.add. destruct (JsSet.has s x) eqn:Hhas.
  - apply has_true, elem_of_values in Hhas. contradiction.
  - rewrite values_delete, values_snoc, filter_app.
    rewrite filter_cons_False by (intros H'; by apply H').
    rewrite filter_nil, app_nil_r.
    rewrite <- values_delete. by apply values_delete_absent.
Qed.

(** X1. Subscribing a listener that is not yet registered for the event and
    then calling the [Unsubscribe] that [on] returned leaves the event with
    the members it had; an event name that had no entry has none afterwards
    and the registry is the one before. *)
Theorem on_then_unsubscribe_restores_members k l w :
  l ∉ Mutation.members w k ->
  exists u, fst (on k l w) = Normal u /\
    let w2 := snd (off (u_eventName u) (u_listener u) (snd (on k l w))) in
    Mutation.members w2 k = Mutation.members w k /\
    (listeners (this w) !! k = None -> listeners (this w2) = listeners (this w)).
Proof.
  unfold Mutation.members. intros Hl.
  exists (mkUnsubscribe k l). split; [apply on_result | ]. simpl.
  destruct (listeners (this w) !! k) as [a|] eqn:Hk.
  - destruct (on_present k l w a Hk) as (Ht & Hs & _).
    assert (Hk1 : listeners (this (snd (on k l w))) !! k = Some a) by (by rewrite Ht).
    destruct (off_present k l _ a Hk1) as [Hs2 HL2].
    assert (Hd1 : deref (snd (on k l w)) a = JsSet.add (deref w a) l).
    { unfold deref at 1. rewrite Hs. by rewrite lookup_insert_eq. }
    rewrite Hd1 in Hs2, HL2.
    pose proof (values_delete_add (deref w a) l Hl) as Hval.
    split; [ | discriminate].
    rewrite HL2. destruct (Nat.eqb _ 0) eqn:Hsz.
    + rewrite lookup_delete_eq. apply Nat.eqb_eq in Hsz.
      unfold JsSet.size in Hsz. rewrite Hval in Hsz.
      by destruct (JsSet.values (deref w a)).
    + rewrite Ht, Hk. unfold deref at 1. rewrite Hs2, lookup_insert_eq. exact Hval.
  - destruct (on_absent k l w Hk) as (HL & Hs & _).
    assert (Hk1 : listeners (this (snd (on k l w))) !! k = Some (fresh w))
      by (by rewrite HL, lookup_insert_eq).
    destruct (off_present k l _ _ Hk1) as [Hs2 HL2].
    assert (Hd1 : deref (snd (on k l w)) (fresh w) = [Some l]).
    { unfold deref. rewrite Hs. by rewrite lookup_insert_eq. }
    rewrite Hd1 in HL2.
    assert (Hempty : JsSet.size (JsSet.delete [Some l] l) = 0).
    { unfold JsSet.delete, JsSet.size, JsSet.values. simpl.
      by rewrite decide_True. }
    rewrite Hempty in HL2. simpl in HL2.
    rewrite HL2, HL, lookup_delete_eq. split; [reflexivity | ].
    intros _. by rewrite delete_insert_id.
Qed.

Lemma on_then_unsubscribe_restores_members_witness :
  let w := Extra.three in
  let w1 := snd (on "k" (LUser 7) w) in
  Mutation.members w1 "k" = [LUser 0; LUser 1; LUser 2; LUser 7] /\
  exists u, fst (on "k" (LUser 7) w) = Normal u /\
    Mutation.members (snd (off (u_eventName u) (u_listener u) w1)) "k" =
    [LUser 0; LUser 1; LUser 2].
Proof.
  intros w w1. split; [vm_compute; reflexivity | ].
  assert (Hl : LUser 7 ∉ Mutation.members w "k").
  { vm_compute. intros H. repeat (apply elem_of_cons in H as [H|H]; [discriminate | ]).
    by apply not_elem_of_nil in H. }
  destruct (on_then_unsubscribe_restores_members "k" (LUser 7) w Hl)
    as (u & Hu & Hm & _).
  exists u. split; [exact Hu | ]. subst w1. rewrite Hm. vm_compute; reflexivity.
Defined.

Lemma set_sets_id w : set_sets (sets w) w = w.
Proof. by destruct w. Qed.

Lemma registry_inv_lookup w k a :
  registry_inv w -> listeners (this w) !! k = Some a ->
  exists s, sets w !! a = Some s /\ deref w a = s /\ JsSet.size s <> 0.
Proof.
  intros [Hne _] Hk. destruct (Hne k a Hk) as [_ Hsize].
  unfold deref in *. destruct (sets w !! a) as [s|]; [by exists s | ].
  by destruct Hsize.
Qed.

(** X2. Unsubscribing twice is unsubscribing once: the second [off] of the
    same listener for the same event leaves the world as it is. *)
Theorem off_twice_is_off_once k l w :
  off k l (snd (off k l w)) = (Normal tt, snd (off k l w)).
Proof.
  destruct (listeners (this w) !! k) as [a|] eqn:Hk.
  - destruct (off_present k l w a Hk) as [Hs HL].
    destruct (Nat.eqb (JsSet.size (JsSet.delete (deref w a) l)) 0) eqn:Hsz.
    + apply off_absent. rewrite HL. apply lookup_delete_eq.
    + set (w1 := snd (off k l w)) in *.
      assert (Hd : deref w1 a = JsSet.delete (deref w a) l).
      { unfold deref at 1. by rewrite Hs, lookup_insert_eq. }
      unfold off at 1. rewrite HL, Hk, Hd, delete_delete.
      assert (Hsame : <[a := JsSet.delete (deref w a) l]> (sets w1) = sets w1).
      { rewrite Hs. apply insert_insert_eq. }
      rewrite Hsame, set_sets_id, Hd, Hsz. reflexivity.
  - rewrite (off_absent k l w Hk). simpl. by apply off_absent.
Qed.

(** X3. [off] for a listener that is not registered for the event (or for
    an event name without entry) changes nothing at all. *)
Theorem off_of_a_stranger_changes_nothing k l w :
  registry_inv w ->
  l ∉ Mutation.members w k ->
  off k l w = (Normal tt, w).
Proof.
  unfold Mutation.members. intros Hinv Hl.
  destruct (listeners (this w) !! k) as [a|] eqn:Hk; [ | by apply off_absent].
  destruct (registry_inv_lookup w k a Hinv Hk) as (s & Hs & Hd & Hsize).
  rewrite Hd in Hl.
  assert (Hdel : JsSet.delete s l = s).
  { apply delete_absent. intros Hin. by apply Hl, elem_of_values. }
  unfold off. rewrite Hk, Hd, Hdel.
  rewrite (insert_id _ _ _ Hs), set_sets_id, Hd.
  apply Nat.eqb_neq in Hsize. by rewrite Hsize.
Qed.

Lemma stranger_not_member :
  (LUser 7 ∉ Mutation.members Extra.three "k") /\
  (LUser 7 ∉ Mutation.members Extra.three "j").
Proof.
  split; vm_compute; intros H;
    repeat (apply elem_of_cons in H as [H|H]; [discriminate | ]);
    by apply not_elem_of_nil in H.
Qed.

Lemma registry_inv_three : registry_inv Extra.three.
Proof.
  apply perform_all_preserves, registry_inv_boot, constructor_listeners.
Qed.

Lemma off_of_a_stranger_changes_nothing_witness :
  off "k" (LUser 7) Extra.three = (Normal tt, Extra.three) /\
  off "j" (LUser 7) Extra.three = (Normal tt, Extra.three).
Proof.
  split.
  - apply off_of_a_stranger_changes_nothing;
      [apply registry_inv_three | apply stranger_not_member].
  - apply off_of_a_stranger_changes_nothing;
      [apply registry_inv_three | apply stranger_not_member].
Defined.

(** X4. Registering a listener that is already registered for the event
    changes neither the registry nor any Set object: the listener stays
    where it is in the order and is not there twice. *)
Theorem on_again_changes_no_set k l w :
  l ∈ Mutation.members w k ->
  same_registry w (snd (on k l w)).
Proof.
  unfold Mutation.members. intros Hl.
  destruct (listeners (this w) !! k) as [a|] eqn:Hk;
    [ | by apply not_elem_of_nil in Hl].
  destruct (on_present k l w a Hk) as (Ht & Hs & Hf).
  split; [exact Ht | split; [ | exact Hf]].
  rewrite Hs, (add_present _ _ Hl).
  apply insert_id. unfold deref in *.
  destruct (sets w !! a); [reflexivity | by apply not_elem_of_nil in Hl].
Qed.

Lemma on_again_changes_no_set_witness :
  let w' := snd (on "k" (LUser 1) Extra.three) in
  this w' = this Extra.three /\ sets w' = sets Extra.three.
Proof.
  intros w'.
  assert (Hl : LUser 1 ∈ Mutation.members Extra.three "k").
  { vm_compute. apply elem_of_cons. right. apply elem_of_cons. by left. }
  destruct (on_again_changes_no_set "k" (LUser 1) Extra.three Hl) as (Ht & Hs & _).
  by split.
Defined.

(** X5. [on] always registers: afterwards the listener is a member of the
    event's set, whatever the threshold.  It writes the warning exactly when
    the set held [maxListeners] listeners or more before the call, and
    writes nothing else. *)
Theorem on_registers_and_warns_at_threshold k l w :
  l ∈ Mutation.members (snd (on k l w)) k /\
  output (snd (on k l w)) =
    output w ++
    (if Nat.leb (maxListeners (this w)) (length (Mutation.members w k))
     then [ConsoleWarn k (maxListeners (this w))] else []).
Proof.
  unfold Mutation.members.
  destruct (listeners (this w) !! k) as [a|] eqn:Hk.
  - destruct (on_present k l w a Hk) as (Ht & Hs & _). split.
    + rewrite Ht, Hk. unfold deref at 1. rewrite Hs, lookup_insert_eq. simpl.
      apply elem_of_values, elem_of_add.
    + unfold on. rewrite !Hk. simpl. unfold JsSet.size.
      destruct (Nat.leb _ _); simpl; [reflexivity | by rewrite app_nil_r].
  - destruct (on_absent k l w Hk) as (HL & Hs & _). split.
    + rewrite HL, lookup_insert_eq. unfold deref. rewrite Hs, lookup_insert_eq.
      simpl. apply elem_of_cons. by left.
    + unfold on. rewrite !Hk. simpl. rewrite lookup_insert_eq.
      unfold deref. simpl. rewrite lookup_insert_eq. simpl.
      change (JsSet.size JsSet.empty) with 0.
      destruct (Nat.leb (maxListeners (this w)) 0); simpl;
        [reflexivity | by rewrite app_nil_r].
Qed.

(** ** What construction fixes *)

Lemma has_config_stable p n : stable (has_config p n).
Proof.
  constructor; unfold preserves, has_config.
  - intros o w Hw. exact Hw.
  - intros c w Hw. exact Hw.
  - intros k l w Hw. unfold on.
    destruct (listeners (this w) !! k) eqn:Hk; simpl;
      rewrite ?Hk, ?lookup_insert_eq; simpl;
      repeat match goal with |- context [Nat.leb ?a ?b] => destruct (Nat.leb a b) end;
      simpl; exact Hw.
  - intros k l w Hw. unfold once, on. simpl.
    destruct (listeners (this w) !! k) eqn:Hk; simpl;
      rewrite ?Hk, ?lookup_insert_eq; simpl;
      repeat match goal with |- context [Nat.leb ?a ?b] => destruct (Nat.leb a b) end;
      simpl; exact Hw.
  - intros k l w Hw. unfold off.
    destruct (listeners (this w) !! k); simpl; [ | exact Hw].
    match goal with |- context [Nat.eqb ?a ?b] => destruct (Nat.eqb a b) end;
      simpl; exact Hw.
  - intros w Hw. exact Hw.
  - intros m w Hw. exact Hw.
  - intros m w Hw. exact Hw.
Qed.

Lemma perform_all_has_config env cs p n w :
  has_config p n w -> has_config p n (perform_all env cs w).
Proof.
  revert w. induction cs as [|c cs IH]; intros w Hw; simpl; [exact Hw | ].
  apply IH. destruct c; simpl.
  - apply preserves_bind; [apply has_config_stable | intros; apply preserves_ret | exact Hw].
  - apply preserves_bind; [apply has_config_stable | intros; apply preserves_ret | exact Hw].
  - by apply has_config_stable.
  - exact Hw.
  - by apply emit_preserves; [apply has_config_stable | ].
  - exact Hw.
Qed.

(** ** Delivery *)

Lemma same_registry_refl w : same_registry w w.
Proof. by repeat split. Qed.

Lemma same_registry_trans w1 w2 w3 :
  same_registry w1 w2 -> same_registry w2 w3 -> same_registry w1 w3.
Proof. intros (?&?&?) (?&?&?). repeat split; congruence. Qed.

Lemma same_registry_deref w w' a : same_registry w w' -> deref w' a = deref w a.
Proof. intros (_ & Hs & _). unfold deref. by rewrite Hs. Qed.

Lemma invoked_app o1 o2 : invoked (o1 ++ o2) = invoked o1 ++ invoked o2.
Proof. unfold invoked. apply omap_app. Qed.

(** Inert user code ends, leaves the broker and the Set objects alone, and
    enters no listener. *)
Lemma run_inert {N} emit_rec (next : N -> Next) (p : prog N) w :
  inert p ->
  exists r w', run emit_rec next p w = (r, w') /\ r <> Diverge /\
    same_registry w w' /\ invoked (output w') = invoked (output w).
Proof.
  revert w. induction p; intros w Hp; simpl in Hp; try destruct Hp; simpl.
  - exists (Normal tt), w. repeat split; discriminate.
  - exists (Thrown e), w. repeat split; discriminate.
  - destruct (IHp (snd (print (UserLog tag) w)) Hp) as (r & w' & Hr & Hd & Hs & Ho).
    exists r, w'. unfold bind. simpl in *. rewrite Hr.
    repeat split; try apply Hs; [by destruct r | ].
    rewrite Ho, invoked_app. simpl. by rewrite app_nil_r.
  - apply H, Hp.
  - destruct (IHp (set_cells (<[cell := v]> (cells w)) w) Hp)
      as (r & w' & Hr & Hd & Hs & Ho).
    exists r, w'. unfold bind. simpl in *. rewrite Hr.
    repeat split; try apply Hs; [by destruct r | exact Ho].
  - destruct H1 as [Hh Hk].
    destruct (IHp1 w H0) as (r1 & w1 & Hr1 & Hd1 & Hs1 & Ho1).
    unfold bind, try_catch. rewrite Hr1.
    destruct r1 as [[]|e|]; [ | | by destruct Hd1].
    + destruct (IHp2 w1 Hk) as (r & w' & Hr & Hd & Hs & Ho).
      exists r, w'. rewrite Hr.
      split; [by destruct r | split; [exact Hd | split]].
      * by apply (same_registry_trans w w1 w').
      * by rewrite Ho.
    + destruct (H e w1 (Hh e)) as (r2 & w2 & Hr2 & Hd2 & Hs2 & Ho2).
      rewrite Hr2. destruct r2 as [[]|e2|]; [ | | by destruct Hd2].
      * destruct (IHp2 w2 Hk) as (r & w' & Hr & Hd & Hs & Ho).
        exists r, w'. rewrite Hr.
        split; [by destruct r | split; [exact Hd | split]].
        -- apply (same_registry_trans w w1 w'); [exact Hs1 | ].
           by apply (same_registry_trans w1 w2 w').
        -- by rewrite Ho, Ho2.
      * exists (Thrown e2), w2.
        split; [reflexivity | split; [discriminate | split]].
        -- by apply (same_registry_trans w w1 w2).
        -- by rewrite Ho2.
Qed.

(** If it has no [throw] to leave it either, it returns. *)
Lemma run_inert_nothrow {N} emit_rec (next : N -> Next) (p : prog N) w :
  inert p -> nothrow p ->
  exists w', run emit_rec next p w = (Normal tt, w') /\
    same_registry w w' /\ invoked (output w') = invoked (output w).
Proof.
  revert w. induction p; intros w Hp Hn; simpl in Hp, Hn;
    try destruct Hp; try destruct Hn; simpl.
  - exists w. by repeat split.
  - destruct (IHp (snd (print (UserLog tag) w)) Hp Hn) as (w' & Hr & Hs & Ho).
    exists w'. unfold bind. simpl in *. rewrite Hr.
    repeat split; try apply Hs.
    rewrite Ho, invoked_app. simpl. by rewrite app_nil_r.
  - by apply H.
  - destruct (IHp (set_cells (<[cell := v]> (cells w)) w) Hp Hn) as (w' & Hr & Hs & Ho).
    exists w'. unfold bind. simpl in *. rewrite Hr.
    repeat split; try apply Hs. exact Ho.
  - destruct H1 as [Hh Hk].
    destruct (run_inert emit_rec next p1 w H0) as (r1 & w1 & Hr1 & Hd1 & Hs1 & Ho1).
    unfold bind, try_catch. rewrite Hr1.
    destruct r1 as [[]|e|]; [ | | by destruct Hd1].
    + destruct (IHp2 w1 Hk H3) as (w' & Hr & Hs & Ho).
      exists w'. rewrite Hr. split; [reflexivity | split].
      * by apply (same_registry_trans w w1 w').
      * by rewrite Ho.
    + destruct (H e w1 (Hh e) (H2 e)) as (w2 & Hr2 & Hs2 & Ho2).
      rewrite Hr2.
      destruct (IHp2 w2 Hk H3) as (w' & Hr & Hs & Ho).
      exists w'. rewrite Hr. split; [reflexivity | split].
      * apply (same_registry_trans w w1 w'); [exact Hs1 | ].
        by apply (same_registry_trans w1 w2 w').
      * by rewrite Ho, Ho2.
Qed.

Lemma values_drop_lookup {A : Type} (s : list (option A)) i :
  match s !! i with
  | None => JsSet.values (drop i s) = []
  | Some None => JsSet.values (drop i s) = JsSet.values (drop (S i) s)
  | Some (Some x) => JsSet.values (drop i s) = x :: JsSet.values (drop (S i) s)
  end.
Proof.
  destruct (s !! i) as [e|] eqn:Hi.
  - rewrite (drop_S _ _ _ Hi). by destruct e.
  - apply lookup_ge_None in Hi. by rewrite drop_ge.
Qed.

(** The loop over a set of inert user listeners under "continue". *)
Lemma for_of_delivers env emit_rec a event s fuel :
  (forall l, Some l ∈ s ->
     exists id, l = LUser id /\ inert (listenerBody env id (data event))) ->
  forall i w,
    deref w a = s ->
    onListenerError (errorPolicy (this w)) = Some (PString POLICY.CONTINUE) ->
    length s <= i + fuel ->
    exists w',
      for_of env emit_rec (S fuel) a event i w = (Normal tt, w') /\
      same_registry w w' /\
      invoked (output w') =
        invoked (output w) ++ map (called_as (data event)) (JsSet.values (drop i s)).
Proof.
  intros Hs. induction fuel as [|fuel IH]; intros i w Hd HL Hlen.
  - rewrite for_of_end.
    + exists w. split; [reflexivity | split; [apply same_registry_refl | ]].
      rewrite drop_ge by lia. simpl. by rewrite app_nil_r.
    + rewrite Hd. apply lookup_ge_None. lia.
  - pose proof (values_drop_lookup s i) as Hv.
    destruct (s !! i) as [[l|]|] eqn:Hi.
    + destruct (Hs l) as (id & -> & Hinert).
      { apply list_elem_of_lookup. by exists i. }
      rewrite for_of_listener with (l := LUser id) by (by rewrite Hd).
      set (w0 := snd (print (Invoked id (data event)) w)).
      destruct (run_inert emit_rec no_next (listenerBody env id (data event)) w0 Hinert)
        as (r & w1 & Hr & Hdiv & Hsame & Hout).
      assert (Hcall : call_listener env emit_rec (LUser id) (data event) w = (r, w1))
        by exact Hr.
      assert (Hsame0 : same_registry w w1).
      { apply (same_registry_trans w w0 w1); [by repeat split | exact Hsame]. }
      assert (Hout1 : invoked (output w1) =
                      invoked (output w) ++ [(id, data event)]).
      { rewrite Hout. subst w0. simpl. by rewrite invoked_app. }
      unfold bind at 1.
      destruct r as [[]|e|]; [ | | by destruct Hdiv].
      * rewrite (visit_normal env emit_rec event (LUser id) w w1 Hcall).
        destruct (IH (S i) w1) as (w' & Hrun & Hsame' & Hout').
        -- by rewrite (same_registry_deref w w1).
        -- destruct Hsame0 as (Ht & _). by rewrite Ht.
        -- lia.
        -- exists w'. rewrite Hrun. split; [reflexivity | split].
           ++ by apply (same_registry_trans w w1 w').
           ++ rewrite Hout', Hout1, Hv. simpl. by rewrite <- app_assoc.
      * rewrite (visit_thrown env emit_rec event (LUser id) w e w1 Hcall).
        unfold bind at 1.
        rewrite handleError_continue
          by (simpl; destruct Hsame0 as (Ht & _); by rewrite Ht).
        unfold ret.
        set (w2 := snd (print _ w1)).
        destruct (IH (S i) w2) as (w' & Hrun & Hsame' & Hout').
        -- subst w2. rewrite deref_print. by rewrite (same_registry_deref w w1).
        -- subst w2. simpl. destruct Hsame0 as (Ht & _). by rewrite Ht.
        -- lia.
        -- exists w'. rewrite Hrun. split; [reflexivity | split].
           ++ apply (same_registry_trans w w1 w'); [exact Hsame0 | ].
              apply (same_registry_trans w1 w2 w'); [by repeat split | exact Hsame'].
           ++ rewrite Hout', Hv. subst w2. simpl. rewrite invoked_app, Hout1.
              simpl. rewrite app_nil_r. by rewrite <- app_assoc.
    + rewrite for_of_hole by (by rewrite Hd).
      destruct (IH (S i) w Hd HL) as (w' & Hrun & Hsame' & Hout'); [lia | ].
      exists w'. rewrite Hrun. split; [reflexivity | split; [exact Hsame' | ]].
      by rewrite Hout', Hv.
    + rewrite for_of_end by (by rewrite Hd).
      exists w. split; [reflexivity | split; [apply same_registry_refl | ]].
      rewrite Hv. simpl. by rewrite app_nil_r.
Qed.

Lemma terminal_delivers env emit_rec fuel k event w a :
  onListenerError (errorPolicy (this w)) = Some (PString POLICY.CONTINUE) ->
  listeners (this w) !! k = Some a ->
  (forall l, l ∈ Mutation.members w k ->
     exists id, l = LUser id /\ inert (listenerBody env id (data event))) ->
  length (deref w a) < fuel ->
  exists w',
    terminal env emit_rec fuel k event w = (Normal tt, w') /\
    same_registry w w' /\
    invoked (output w') =
      invoked (output w) ++ map (called_as (data event)) (Mutation.members w k).
Proof.
  unfold Mutation.members. intros HL Hk Hm Hfuel. rewrite Hk in *.
  unfold terminal. rewrite Hk.
  destruct fuel as [|fuel]; [lia | ].
  destruct (for_of_delivers env emit_rec a event (deref w a) fuel) with (i := 0) (w := w)
    as (w' & Hrun & Hsame & Hout); try done; [ | lia | by exists w'].
  intros l Hl. apply Hm. by apply elem_of_values.
Qed.

(** X7. With [onListenerError: "continue"], no middleware, and listeners
    that are plain user functions keeping to themselves, one [emit] calls
    every member of the event's set exactly once with the emitted data, in
    the order of registration, whether or not some of them throw; it
    returns normally and leaves the registry as it was. *)
Theorem emit_calls_members_in_registration_order env fuel k d w a :
  JsSet.values (middlewares (this w)) = [] ->
  onListenerError (errorPolicy (this w)) = Some (PString POLICY.CONTINUE) ->
  listeners (this w) !! k = Some a ->
  (forall l, l ∈ Mutation.members w k ->
     exists id, l = LUser id /\ inert (listenerBody env id d)) ->
  length (deref w a) < fuel ->
  exists w',
    emit env (S fuel) k d w = (Normal tt, w') /\
    same_registry w w' /\
    invoked (output w') = invoked (output w) ++ map (called_as d) (Mutation.members w k).
Proof.
  intros Hmw HL Hk Hm Hfuel.
  destruct (terminal_delivers env (emit env fuel) fuel k (mkEvent k d) w a HL Hk Hm Hfuel)
    as (w' & Hrun & Hsame & Hout).
  exists w'. split; [ | by split].
  rewrite emit_unfold. unfold try_catch.
  rewrite pipeline_no_middleware by exact Hmw. by rewrite Hrun.
Qed.

Lemma emit_calls_members_in_registration_order_witness :
  exists w',
    emit Extra.env 5 "k" 7%Z Extra.three = (Normal tt, w') /\
    same_registry Extra.three w' /\
    invoked (output w') = [(0, 7%Z); (1, 7%Z); (2, 7%Z)].
Proof.
  apply (emit_calls_members_in_registration_order Extra.env 4 "k" 7%Z Extra.three 0).
  - reflexivity.
  - reflexivity.
  - vm_compute; reflexivity.
  - intros l Hl. vm_compute in Hl.
    repeat (apply elem_of_cons in Hl as [->|Hl];
            [eexists; split; [reflexivity | exact I] | ]).
    by apply not_elem_of_nil in Hl.
  - vm_compute; lia.
Defined.

(** X8. The terminal stage finds its listeners under the name that [emit]
    was called with and hands them the payload of the event it receives: a
    middleware that passes on an event with another name and other data
    still reaches the listeners of the emitted name, with the new data. *)
Theorem dispatch_is_by_emitted_name env fuel k d w a m f :
  JsSet.values (middlewares (this w)) = [MUser m] ->
  middlewareBody env m =
    mkMiddleware PRet (fun event => PNext tt (f event) PRet) ->
  onListenerError (errorPolicy (this w)) = Some (PString POLICY.CONTINUE) ->
  listeners (this w) !! k = Some a ->
  (forall l, l ∈ Mutation.members w k ->
     exists id, l = LUser id /\ inert (listenerBody env id (data (f (mkEvent k d))))) ->
  length (deref w a) < fuel ->
  exists w',
    emit env (S fuel) k d w = (Normal tt, w') /\
    same_registry w w' /\
    invoked (output w') =
      invoked (output w) ++
      map (called_as (data (f (mkEvent k d)))) (Mutation.members w k).
Proof.
  intros Hmw Hm HL Hk Hmem Hfuel.
  destruct (terminal_delivers env (emit env fuel) fuel k (f (mkEvent k d)) w a
              HL Hk Hmem Hfuel) as (w' & Hrun & Hsame & Hout).
  exists w'. split; [ | by split].
  rewrite emit_unfold. unfold try_catch, pipeline. rewrite Hmw.
  simpl. unfold bind, try_catch, ret. rewrite Hm. simpl.
  unfold bind. by rewrite Hrun.
Qed.

Lemma dispatch_is_by_emitted_name_witness :
  exists w',
    emit Rewrite.env 3 "k" 7%Z Rewrite.world = (Normal tt, w') /\
    same_registry Rewrite.world w' /\
    invoked (output w') = [(0, 14%Z)].
Proof.
  apply (dispatch_is_by_emitted_name Rewrite.env 2 "k" 7%Z Rewrite.world 0 0
           Rewrite.rename).
  - reflexivity.
  - reflexivity.
  - reflexivity.
  - vm_compute; reflexivity.
  - intros l Hl. vm_compute in Hl.
    repeat (apply elem_of_cons in Hl as [->|Hl];
            [eexists; split; [reflexivity | exact I] | ]).
    by apply not_elem_of_nil in Hl.
  - vm_compute; lia.
Defined.

(** ** Events nobody listens to *)

(** X9. With no middleware registered, [emit] for an event name that has no
    entry (never subscribed, all unsubscribed) returns normally and changes
    nothing; so does every [emit] right after [clear]. *)
Theorem emit_without_listeners_does_nothing env fuel k d w :
  JsSet.values (middlewares (this w)) = [] ->
  (listeners (this w) !! k = None -> emit env (S fuel) k d w = (Normal tt, w)) /\
  emit env (S fuel) k d (snd (clear w)) = (Normal tt, snd (clear w)).
Proof.
  intros Hmw.
  assert (Hgen : forall w0, JsSet.values (middlewares (this w0)) = [] ->
            listeners (this w0) !! k = None ->
            emit env (S fuel) k d w0 = (Normal tt, w0)).
  { intros w0 Hmw0 Hk0. rewrite emit_unfold. unfold try_catch.
    rewrite pipeline_no_middleware by exact Hmw0.
    unfold terminal. by rewrite Hk0. }
  split; [by apply Hgen | ].
  apply Hgen; [exact Hmw | ]. simpl. apply lookup_empty.
Qed.

Lemma emit_without_listeners_does_nothing_witness :
  emit Extra.env 1 "j" 7%Z Extra.three = (Normal tt, Extra.three) /\
  emit Extra.env 1 "k" 7%Z (snd (clear Extra.three)) = (Normal tt, snd (clear Extra.three)).
Proof.
  destruct (emit_without_listeners_does_nothing Extra.env 0 "j" 7%Z Extra.three eq_refl)
    as [Hj _].
  destruct (emit_without_listeners_does_nothing Extra.env 0 "k" 7%Z Extra.three eq_refl)
    as [_ Hk].
  split; [apply Hj; vm_compute; reflexivity | exact Hk].
Defined.

(** ** The default configuration *)

Lemma constructor_default_policy options st :
  Options.errorPolicy options = None ->
  errorPolicy (fst (constructor options st)) = DEFAULT_ERROR_POLICY.
Proof.
  intros Hp. unfold constructor.
  destruct (Options.middlewares options); simpl; by rewrite Hp.
Qed.

(** X10. A broker constructed without [errorPolicy] never lets an exception
    out of [emit]: whatever was registered and emitted before, whatever the
    listeners and middlewares do, no [emit] ends in a throw. *)
Theorem default_broker_never_throws env options st cs fuel k d e :
  Options.errorPolicy options = None ->
  fst (emit env fuel k d (perform_all env cs (boot (fst (constructor options st)))))
  <> Thrown e.
Proof.
  intros Hp.
  apply (emit_quiet env DEFAULT_ERROR_POLICY fuel k d eq_refl).
  apply (perform_all_has_config env cs DEFAULT_ERROR_POLICY
           (maxListeners (fst (constructor options st)))).
  split; [ | reflexivity]. simpl. by apply constructor_default_policy.
Qed.

Lemma default_broker_never_throws_witness :
  fst (emit Scenario.handlers_throw 4 "k" 7%Z
         (perform_all Scenario.handlers_throw [CallOn "k" 0; CallOnce "k" 1]
            (boot (fst (constructor Options.none (mkStore ∅ 0))))))
  <> Thrown Scenario.boom.
Proof. by apply default_broker_never_throws. Defined.

(** ** One-shot listeners that return *)

Lemma on_middlewares k l w :
  middlewares (this (snd (on k l w))) = middlewares (this w).
Proof.
  unfold on. destruct (listeners (this w) !! k) eqn:Hk; simpl;
    rewrite ?Hk, ?lookup_insert_eq; simpl;
    by destruct (Nat.leb _ _).
Qed.

Lemma on_output_invoked k l w :
  invoked (output (snd (on k l w))) = invoked (output w).
Proof.
  unfold on. destruct (listeners (this w) !! k) eqn:Hk; simpl;
    rewrite ?Hk, ?lookup_insert_eq; simpl;
    destruct (Nat.leb _ _); simpl; try reflexivity;
    rewrite invoked_app; simpl; by rewrite app_nil_r.
Qed.

(** X11. [once] for an event without entry, with a listener that keeps to
    itself and returns: the next [emit] calls the listener once and removes
    the wrapper, which was the only member, so the entry goes and the
    registry is the one before [once]; later emissions find nothing. *)
Theorem once_listener_that_returns_is_removed env fuel k d id w :
  JsSet.values (middlewares (this w)) = [] ->
  listeners (this w) !! k = None ->
  inert (listenerBody env id d) ->
  nothrow (listenerBody env id d) ->
  0 < fuel ->
  let w1 := snd (once k id w) in
  exists w2,
    emit env (S (S fuel)) k d w1 = (Normal tt, w2) /\
    invoked (output w2) = invoked (output w) ++ [(id, d)] /\
    listeners (this w2) = listeners (this w) /\
    emit env (S (S fuel)) k d w2 = (Normal tt, w2).
Proof.
  intros Hmw Hk Hinert Hnothrow Hfuel w1.
  set (wrapped := LOnce (fresh w) k id).
  set (a := S (fresh w)).
  set (ws := set_fresh (S (fresh w)) w).
  assert (Hw1 : w1 = snd (on k wrapped ws)) by reflexivity.
  destruct (on_absent k wrapped ws Hk) as (HL1 & Hs1 & _).
  rewrite <- Hw1 in HL1, Hs1. simpl in HL1, Hs1. fold a in HL1, Hs1.
  assert (Hmw1 : JsSet.values (middlewares (this w1)) = []).
  { rewrite Hw1, on_middlewares. exact Hmw. }
  assert (Hk1 : listeners (this w1) !! k = Some a)
    by (by rewrite HL1, lookup_insert_eq).
  assert (Hd1 : deref w1 a = [Some wrapped]).
  { unfold deref. by rewrite Hs1, lookup_insert_eq. }
  assert (Ho1 : invoked (output w1) = invoked (output w)).
  { rewrite Hw1, on_output_invoked. reflexivity. }
  (* the listener runs *)
  set (w1' := snd (print (Invoked id d) w1)).
  destruct (run_inert_nothrow (emit env (S fuel)) no_next (listenerBody env id d) w1'
              Hinert Hnothrow) as (w2 & Hrun & Hsame & Hout).
  assert (Hsame1 : same_registry w1 w2).
  { apply (same_registry_trans w1 w1' w2); [by repeat split | exact Hsame]. }
  assert (Huser : call_user env (emit env (S fuel)) id d w1 = (Normal tt, w2))
    by exact Hrun.
  (* the wrapper removes itself *)
  assert (Hk2 : listeners (this w2) !! k = Some a).
  { destruct Hsame1 as (Ht & _). by rewrite Ht. }
  destruct (off_present k wrapped w2 a Hk2) as [Hs3 HL3].
  rewrite (same_registry_deref w1 w2 a Hsame1), Hd1 in Hs3, HL3.
  assert (Hdel : JsSet.delete [Some wrapped] wrapped = [None]).
  { unfold JsSet.delete. simpl. by rewrite decide_True. }
  rewrite Hdel in Hs3, HL3. simpl in HL3.
  set (w3 := snd (off k wrapped w2)) in *.
  assert (HL3' : listeners (this w3) = listeners (this w)).
  { rewrite HL3. destruct Hsame1 as (Ht & _). rewrite Ht, HL1.
    by apply delete_insert_id. }
  assert (Hcall : call_listener env (emit env (S fuel)) wrapped d w1 = (Normal tt, w3)).
  { change ((call_user env (emit env (S fuel)) id d >> off k wrapped) w1 =
            (Normal tt, w3)).
    unfold bind. rewrite Huser. subst w3.
    destruct (off_total k wrapped w2) as ([] & w' & ->). reflexivity. }
  assert (Hd3 : deref w3 a = [None]).
  { unfold deref. by rewrite Hs3, lookup_insert_eq. }
  assert (Hmw3 : JsSet.values (middlewares (this w3)) = []).
  { subst w3. unfold off. rewrite Hk2.
    destruct (Nat.eqb _ 0); simpl; destruct Hsame1 as (Ht & _); by rewrite Ht. }
  assert (Ho3 : output w3 = output w2).
  { subst w3. unfold off. rewrite Hk2. by destruct (Nat.eqb _ 0). }
  exists w3. split; [ | split; [ | split; [exact HL3' | ]]].
  - rewrite emit_unfold. unfold try_catch.
    rewrite pipeline_no_middleware by exact Hmw1.
    unfold terminal. rewrite Hk1.
    destruct fuel as [|fuel]; [lia | ].
    rewrite for_of_listener with (l := wrapped) by (by rewrite Hd1).
    unfold bind.
    rewrite (visit_normal env (emit env (S (S fuel))) (mkEvent k d) wrapped w1 w3 Hcall).
    rewrite for_of_end; [reflexivity | by rewrite Hd3].
  - rewrite Ho3, Hout. subst w1'. simpl. rewrite invoked_app, Ho1. reflexivity.
  - rewrite emit_unfold. unfold try_catch.
    rewrite pipeline_no_middleware by exact Hmw3.
    unfold terminal. by rewrite HL3', Hk.
Qed.

Lemma once_listener_that_returns_is_removed_witness :
  let w1 := snd (once "j" 0 Extra.three) in
  exists w2,
    emit Extra.env 3 "j" 7%Z w1 = (Normal tt, w2) /\
    invoked (output w2) = invoked (output Extra.three) ++ [(0, 7%Z)] /\
    listeners (this w2) = listeners (this Extra.three) /\
    emit Extra.env 3 "j" 7%Z w2 = (Normal tt, w2).
Proof.
  apply (once_listener_that_returns_is_removed Extra.env 1 "j" 7%Z 0 Extra.three).
  - reflexivity.
  - vm_compute; reflexivity.
  - exact I.
  - exact I.
  - lia.
Defined.

(** ** The middleware set *)

Lemma values_add_cases {A : Type} `{EqDecision A} (s : list (option A)) (x : A) :
  ((x ∈ JsSet.values s) /\ JsSet.values (JsSet.add s x) = JsSet.values s) \/
  ((x ∉ JsSet.values s) /\ JsSet.values (JsSet.add s x) = JsSet.values s ++ [x]).
Proof.
  destruct (decide (x ∈ JsSet.values s)) as [Hin|Hout].
  - left. split; [exact Hin | ]. by rewrite add_present.
  - right. split; [exact Hout | ]. by apply values_add.
Qed.

Lemma nodup_values_add {A : Type} `{EqDecision A} (s : list (option A)) (x : A) :
  NoDup (JsSet.values s) -> NoDup (JsSet.values (JsSet.add s x)).
Proof.
  intros Hs. destruct (values_add_cases s x) as [[_ ->]|[Hout ->]]; [exact Hs | ].
  apply NoDup_app. split; [exact Hs | split; [ | apply NoDup_singleton]].
  intros y Hy Hyx. apply list_elem_of_singleton in Hyx. by subst y.
Qed.

Lemma nodup_values_delete {A : Type} `{EqDecision A} (s : list (option A)) (x : A) :
  NoDup (JsSet.values s) -> NoDup (JsSet.values (JsSet.delete s x)).
Proof. intros Hs. rewrite values_delete. by apply NoDup_filter. Qed.

Lemma foldl_add_elem {A : Type} `{EqDecision A} (l : list A) (acc : list (option A)) x :
  x ∈ JsSet.values (foldl JsSet.add acc l) <-> (x ∈ JsSet.values acc) \/ (x ∈ l).
Proof.
  revert acc. induction l as [|y l IH]; intros acc; simpl.
  - split; [by left | intros [H|H]; [exact H | by apply not_elem_of_nil in H]].
  - rewrite IH, elem_of_cons.
    destruct (values_add_cases acc y) as [[Hin ->]|[Hout ->]].
    + split; [intros [H|H]; auto | intros [H|[->|H]]; auto].
    + rewrite elem_of_app, list_elem_of_singleton.
      split; [intros [[H|H]|H]; auto | intros [H|[H|H]]; auto].
Qed.

Lemma foldl_add_nodup {A : Type} `{EqDecision A} (l : list A) (acc : list (option A)) :
  NoDup (JsSet.values acc) -> NoDup (JsSet.values (foldl JsSet.add acc l)).
Proof.
  revert acc. induction l as [|y l IH]; intros acc Hacc; simpl; [exact Hacc | ].
  by apply IH, nodup_values_add.
Qed.

Lemma foldl_add_fresh {A : Type} `{EqDecision A} (l : list A) (acc : list (option A)) :
  NoDup l -> (forall x, x ∈ l -> x ∉ JsSet.values acc) ->
  JsSet.values (foldl JsSet.add acc l) = JsSet.values acc ++ l.
Proof.
  revert acc. induction l as [|y l IH]; intros acc Hl Hdisj; simpl.
  - by rewrite app_nil_r.
  - apply NoDup_cons in Hl as [Hy Hl].
    rewrite IH; [ | exact Hl | ].
    + rewrite values_add by (apply Hdisj, elem_of_cons; by left).
      by rewrite <- app_assoc.
    + intros x Hx. rewrite values_add by (apply Hdisj, elem_of_cons; by left).
      intros Hin. apply elem_of_app in Hin as [Hin|Hin].
      * apply (Hdisj x); [apply elem_of_cons; by right | exact Hin].
      * apply list_elem_of_singleton in Hin. by subst x.
Qed.

Lemma constructor_middlewares options st :
  middlewares (fst (constructor options st)) =
  JsSet.of_list (default [] (arrays (snd (constructor options st)) !!
                   match Options.middlewares options with
                   | Some a => a
                   | None => next_ref st
                   end)).
Proof.
  unfold constructor.
  destruct (Options.middlewares options), (Options.logger options); reflexivity.
Qed.

(** X12. [new Set(middlewares)] in the constructor: a middleware that the
    array holds several times is in the chain once, at its first place;
    the chain holds exactly the middlewares of the array, and an array
    without repetition is taken over in its order. *)
Theorem constructor_takes_each_middleware_once options st a ms :
  Options.logger options = false ->
  Options.middlewares options = Some a ->
  arrays st !! a = Some ms ->
  let chain := JsSet.values (middlewares (fst (constructor options st))) in
  NoDup chain /\
  (forall m, m ∈ chain <-> m ∈ ms) /\
  (NoDup ms -> chain = ms).
Proof.
  intros Hlog Hmw Ha chain. subst chain.
  unfold constructor. rewrite Hmw, Hlog. simpl. rewrite Ha. simpl.
  unfold JsSet.of_list. split; [ | split].
  - apply foldl_add_nodup. apply NoDup_nil_2.
  - intros m. rewrite foldl_add_elem. simpl.
    split; [intros [H|H]; [by apply not_elem_of_nil in H | exact H] | by right].
  - intros Hms. rewrite foldl_add_fresh; [reflexivity | exact Hms | ].
    intros x _. apply not_elem_of_nil.
Qed.

Lemma constructor_takes_each_middleware_once_witness :
  let chain := JsSet.values (middlewares
                 (fst (constructor Extra.without_logger Extra.repeated))) in
  NoDup chain /\ (MUser 1 ∈ chain) /\ chain = [MUser 0; MUser 1].
Proof.
  intros chain.
  destruct (constructor_takes_each_middleware_once Extra.without_logger Extra.repeated
              0 [MUser 0; MUser 1; MUser 0] eq_refl eq_refl
              ltac:(vm_compute; reflexivity)) as (Hnodup & Hmem & _).
  split; [exact Hnodup | split; [ | vm_compute; reflexivity]].
  apply Hmem. apply elem_of_cons. right. apply elem_of_cons. by left.
Defined.

(** X13. With [logger] set, the logger middleware is the last of the chain,
    behind the middlewares of the caller's array in their order: it is the
    innermost layer, next to the terminal stage.  Without an array it is
    the whole chain. *)
Theorem logger_is_the_innermost_middleware options st :
  Options.logger options = true ->
  let logger := MLogger (next_ref st) (mkLoggerOptions true None) in
  let chain := JsSet.values (middlewares (fst (constructor options st))) in
  (forall a ms,
     Options.middlewares options = Some a -> arrays st !! a = Some ms ->
     NoDup ms -> logger ∉ ms -> chain = ms ++ [logger]) /\
  (Options.middlewares options = None ->
   chain = [MLogger (S (next_ref st)) (mkLoggerOptions true None)]).
Proof.
  intros Hlog logger chain. subst chain. split.
  - intros a ms Hmw Ha Hms Hfresh.
    unfold constructor. rewrite Hmw, Hlog. simpl. rewrite Ha. simpl.
    rewrite lookup_insert_eq. simpl. unfold JsSet.of_list.
    rewrite foldl_add_fresh; [reflexivity | | intros x _; apply not_elem_of_nil].
    apply NoDup_app. split; [exact Hms | split; [ | apply NoDup_singleton]].
    intros y Hy Hyl. apply list_elem_of_singleton in Hyl. by subst y.
  - intros Hmw. unfold constructor. rewrite Hmw, Hlog. simpl.
    rewrite lookup_insert_eq. simpl. rewrite lookup_insert_eq. reflexivity.
Qed.

Lemma logger_is_the_innermost_middleware_witness :
  JsSet.values (middlewares (fst (constructor Extra.with_logger Extra.store))) =
  [MUser 0; MUser 1; MLogger 1 (mkLoggerOptions true None)].
Proof.
  destruct (logger_is_the_innermost_middleware Extra.with_logger Extra.store eq_refl)
    as [H _].
  apply (H 0 [MUser 0; MUser 1]); try reflexivity.
  - repeat constructor; intros Hin;
      repeat (apply elem_of_cons in Hin as [Hin|Hin]; [discriminate | ]);
      by apply not_elem_of_nil in Hin.
  - intros Hin.
    repeat (apply elem_of_cons in Hin as [Hin|Hin]; [discriminate | ]).
    by apply not_elem_of_nil in Hin.
Defined.

(** X14. Two brokers constructed from the same options object with [logger]
    set and an array of the caller: the array ends with two logger
    middlewares, and the chain of the second broker holds both, so that the
    second broker logs every event twice. *)
Theorem second_construction_gets_two_loggers options st a ms :
  Options.logger options = true ->
  Options.middlewares options = Some a ->
  arrays st !! a = Some ms ->
  let st1 := snd (constructor options st) in
  let '(broker2, st2) := constructor options st1 in
  let l1 := MLogger (next_ref st) (mkLoggerOptions true None) in
  let l2 := MLogger (S (next_ref st)) (mkLoggerOptions true None) in
  arrays st2 !! a = Some (ms ++ [l1; l2]) /\
  l1 ∈ JsSet.values (middlewares broker2) /\
  l2 ∈ JsSet.values (middlewares broker2) /\
  l1 <> l2.
Proof.
  intros Hlog Hmw Ha st1. subst st1.
  unfold constructor. rewrite Hmw, Hlog. simpl. rewrite Ha. simpl.
  rewrite !lookup_insert_eq. simpl. rewrite <- app_assoc. simpl.
  split; [reflexivity | ].
  unfold JsSet.of_list. rewrite !foldl_add_elem.
  split; [ | split].
  - right. apply elem_of_app. right. apply elem_of_cons. by left.
  - right. apply elem_of_app. right. apply elem_of_cons. right.
    apply elem_of_cons. by left.
  - intros Heq. injection Heq as Heq. lia.
Qed.

Lemma second_construction_gets_two_loggers_witness :
  arrays (snd (constructor Caller.options (snd (constructor Caller.options Caller.store))))
    !! 0 =
  Some [MUser 0; MLogger 1 (mkLoggerOptions true None);
        MLogger 2 (mkLoggerOptions true None)].
Proof.
  pose proof (second_construction_gets_two_loggers Caller.options Caller.store 0
                [MUser 0] eq_refl eq_refl eq_refl) as H.
  simpl in H. exact (proj1 H).
Defined.

Lemma perform_all_stable P env cs w :
  stable P -> P w -> P (perform_all env cs w).
Proof.
  intros HP. revert w. induction cs as [|c cs IH]; intros w Hw; simpl; [exact Hw | ].
  apply IH. destruct c; simpl.
  - apply preserves_bind; [apply HP | intros; apply preserves_ret | exact Hw].
  - apply preserves_bind; [apply HP | intros; apply preserves_ret | exact Hw].
  - by apply HP.
  - by apply HP.
  - by apply emit_preserves.
  - exact (stable_use P HP middleware w Hw).
Qed.

(** X15. [use] has set semantics and its remover undoes it: registering a
    middleware again changes nothing; after [use] the middleware is in the
    chain and after the remover it is not; and removing a middleware that
    [use] has just added gives back the chain there was. *)
Theorem use_and_its_remover m w :
  let chain w := JsSet.values (middlewares (this w)) in
  snd (use m (snd (use m w))) = snd (use m w) /\
  (m ∈ chain (snd (use m w))) /\
  (m ∉ chain (snd (remove m w))) /\
  (m ∉ chain w -> chain (snd (remove m (snd (use m w)))) = chain w).
Proof.
  intros chain. subst chain. simpl. repeat split.
  - unfold set_this, set_middlewares. simpl.
    rewrite (add_present (JsSet.add (middlewares (this w)) m) m); [reflexivity | ].
    apply elem_of_values, elem_of_add.
  - apply elem_of_values, elem_of_add.
  - rewrite values_delete. intros Hin. apply list_elem_of_filter in Hin as [Hne _].
    by apply Hne.
  - intros Hm. by apply values_delete_add.
Qed.

(** ** The logger middleware *)

Lemma print_logged event w :
  snd (print ConsoleGroupEnd
         (snd (print (ConsoleLog (data event))
                 (snd (print (ConsoleGroup (name event)) w))))) =
  add_output (logged event) w.
Proof. unfold add_output, logged. simpl. by rewrite <- !app_assoc. Qed.

(** X16. A broker whose chain is the logger middleware of the constructor
    writes the three console lines of an event (group with the name, the
    payload, group end) for every [emit], before the terminal stage runs and
    whether or not anybody listens; the event reaches the terminal stage
    unchanged. *)
Theorem logger_writes_each_event_before_dispatch env fuel k d w stamp :
  JsSet.values (middlewares (this w)) = [MLogger stamp (mkLoggerOptions true None)] ->
  pipeline env (emit env fuel) fuel k d w =
    terminal env (emit env fuel) fuel k (mkEvent k d)
             (add_output (logged (mkEvent k d)) w) /\
  exists rest,
    output (snd (emit env (S fuel) k d w)) = output w ++ logged (mkEvent k d) ++ rest.
Proof.
  intros Hmw.
  assert (Hpipe : pipeline env (emit env fuel) fuel k d w =
            terminal env (emit env fuel) fuel k (mkEvent k d)
                     (add_output (logged (mkEvent k d)) w)).
  { unfold pipeline. rewrite Hmw. simpl.
    unfold bind at 1, ret, try_catch. simpl.
    unfold createLoggerMiddleware. simpl.
    unfold bind, ret. simpl.
    rewrite <- (print_logged (mkEvent k d) w). simpl.
    by destruct (terminal env (emit env fuel) fuel k (mkEvent k d) _) as [[[]| |] ?]. }
  split; [exact Hpipe | ].
  assert (Hext : output_extends (output w ++ logged (mkEvent k d))
                   (snd (emit env (S fuel) k d w))).
  { set (P := output_extends (output w ++ logged (mkEvent k d))).
    assert (HP : stable P) by apply output_extends_stable.
    assert (Hrec : forall k' d', preserves P (emit env fuel k' d'))
      by (intros; by apply emit_preserves).
    rewrite emit_unfold. unfold try_catch. rewrite Hpipe.
    assert (H0 : P (add_output (logged (mkEvent k d)) w)) by (by exists []; rewrite app_nil_r).
    pose proof (terminal_preserves P HP env (emit env fuel) Hrec fuel k (mkEvent k d)
                  _ H0) as Ht.
    destruct (terminal env (emit env fuel) fuel k (mkEvent k d) _) as [[[]|e|] w1];
      simpl in *; try exact Ht.
    apply (preserves_bind P (handleError env (emit env fuel) e (mkEvent k d) EMIT)
             (fun _ => ret tt)); [ | intros; apply preserves_ret | exact Ht].
    by apply handleError_preserves. }
  destruct Hext as [rest Hrest]. exists rest. by rewrite Hrest, <- app_assoc.
Qed.

Lemma logger_writes_each_event_before_dispatch_witness :
  exists rest,
    output (snd (emit Extra.env 3 "k" 7%Z Extra.logging)) =
    output Extra.logging ++ logged (mkEvent "k" 7%Z) ++ rest.
Proof.
  apply (logger_writes_each_event_before_dispatch Extra.env 2 "k" 7%Z Extra.logging 1).
  vm_compute; reflexivity.
Defined.

(** ** Errors while the chain is composed *)

(** X17. A middleware whose call [middleware(next)] throws, under
    [onMiddlewareError: "continue"]: the error is written to the console as
    a middleware error, the layer is left out, and the event goes on to what
    would have been its [next]; here, with this middleware alone in the
    chain, straight to the terminal stage. *)
Theorem broken_middleware_is_left_out env fuel k d w m error w' :
  JsSet.values (middlewares (this w)) = [MUser m] ->
  run (emit env fuel) (fun _ : unit => terminal env (emit env fuel) fuel k)
      (construct (middlewareBody env m)) w = (Thrown error, w') ->
  onMiddlewareError (errorPolicy (this w')) = Some (PString POLICY.CONTINUE) ->
  pipeline env (emit env fuel) fuel k d w =
    terminal env (emit env fuel) fuel k (mkEvent k d)
      (snd (print (ConsoleError (ERROR_TYPE MIDDLEWARE) k error) w')).
Proof.
  intros Hmw Hc HM. unfold pipeline. rewrite Hmw.
  cbn [reduceRight apply_middleware].
  unfold bind at 1. unfold ret at 1. unfold bind at 1. unfold try_catch.
  unfold bind at 1. rewrite Hc. unfold bind at 1.
  rewrite handleError_continue by exact HM.
  reflexivity.
Qed.

Lemma broken_middleware_is_left_out_witness :
  let env := Extra.broken_construction_env in
  output (snd (emit env 4 "k" 7%Z Extra.guarded)) =
    [ConsoleError "middleware" "k" Scenario.boom; Invoked 0 7%Z; UserLog "listener ran"] /\
  pipeline env (emit env 3) 3 "k" 7%Z Extra.guarded =
    terminal env (emit env 3) 3 "k" (mkEvent "k" 7%Z)
      (snd (print (ConsoleError "middleware" "k" Scenario.boom) Extra.guarded)).
Proof.
  intros env. split; [vm_compute; reflexivity | ].
  apply (broken_middleware_is_left_out env 3 "k" 7%Z Extra.guarded 0 Scenario.boom
           Extra.guarded).
  - vm_compute; reflexivity.
  - vm_compute; reflexivity.
  - reflexivity.
Defined.

(** ** No listener twice in a set *)

Lemma sets_nodup_stable : stable sets_nodup.
Proof.
  assert (Hderef : forall w a, sets_nodup w -> NoDup (JsSet.values (deref w a))).
  { intros w a Hw. unfold deref. destruct (sets w !! a) as [s|] eqn:Hs; simpl.
    - by apply (Hw a).
    - apply NoDup_nil_2. }
  assert (Hon : forall k l, preserves sets_nodup (on k l)).
  { intros k l w Hw a s Hs.
    destruct (listeners (this w) !! k) as [a0|] eqn:Hk.
    - destruct (on_present k l w a0 Hk) as (_ & Hsets & _). rewrite Hsets in Hs.
      destruct (decide (a0 = a)) as [->|Hne].
      + rewrite lookup_insert_eq in Hs. injection Hs as <-.
        by apply nodup_values_add, Hderef.
      + rewrite lookup_insert_ne in Hs by exact Hne. by apply (Hw a).
    - destruct (on_absent k l w Hk) as (_ & Hsets & _). rewrite Hsets in Hs.
      destruct (decide (fresh w = a)) as [<-|Hne].
      + rewrite lookup_insert_eq in Hs. injection Hs as <-.
        apply NoDup_singleton.
      + rewrite lookup_insert_ne in Hs by exact Hne. by apply (Hw a). }
  constructor.
  - intros o w Hw. exact Hw.
  - intros c w Hw. exact Hw.
  - exact Hon.
  - intros k l w Hw. unfold once. by apply Hon.
  - intros k l w Hw a s Hs.
    destruct (listeners (this w) !! k) as [a0|] eqn:Hk.
    + destruct (off_present k l w a0 Hk) as (Hsets & _). rewrite Hsets in Hs.
      destruct (decide (a0 = a)) as [->|Hne].
      * rewrite lookup_insert_eq in Hs. injection Hs as <-.
        by apply nodup_values_delete, Hderef.
      * rewrite lookup_insert_ne in Hs by exact Hne. by apply (Hw a).
    + rewrite (off_absent k l w Hk) in Hs. by apply (Hw a).
  - intros w Hw. exact Hw.
  - intros m w Hw. exact Hw.
  - intros m w Hw. exact Hw.
Qed.

(** X18. A listener set never holds a function twice: whatever public
    calls were made on a new broker, with whatever user code inside the
    emissions, every Set object of the heap lists each listener at most
    once, so that one pass over it meets no listener twice. *)
Theorem listener_sets_hold_no_duplicates env options st cs a s :
  sets (perform_all env cs (boot (fst (createEventBroker options st)))) !! a = Some s ->
  NoDup (JsSet.values s).
Proof.
  revert a s. change (sets_nodup
    (perform_all env cs (boot (fst (createEventBroker options st))))).
  apply perform_all_stable; [apply sets_nodup_stable | ].
  intros a s Hs. simpl in Hs. by rewrite lookup_empty in Hs.
Qed.

Lemma listener_sets_hold_no_duplicates_witness :
  let cs := [CallOn "k" 0; CallOn "k" 1; CallOn "k" 0; CallOff "k" (LUser 1);
             CallOn "k" 1] in
  let w := perform_all Extra.env cs (boot (fst (createEventBroker None (mkStore ∅ 0)))) in
  sets w !! 0 = Some [Some (LUser 0); None; Some (LUser 1)] /\
  NoDup (JsSet.values [Some (LUser 0); None; Some (LUser 1)]).
Proof.
  intros cs w.
  assert (Hs : sets w !! 0 = Some [Some (LUser 0); None; Some (LUser 1)])
    by (vm_compute; reflexivity).
  split; [exact Hs | ].
  exact (listener_sets_hold_no_duplicates Extra.env None (mkStore ∅ 0) cs 0 _ Hs).
Defined.
